(** * JSON-TREE: path tokenizer, path composer, tree-to-graph builder, resolver

    A shallow embedding of [src/App.jsx]: [parseJsonPath], [makeChildPath],
    [buildFlowFromJSON] (with its inner [nodeTypeOf], [addNode], [traverse]),
    and the [App] callbacks [visualize], [findNodeByPath], [doSearch] and
    [onNodeClick].

    Characters are modelled by [ascii] (code units below 256) and JavaScript
    strings by [string].  Numbers that the program only uses as small
    integers (positions, counters) are modelled by [Z] and [nat]. *)

From Stdlib Require Import ZArith Lia Ascii String DecimalString DecimalNat.
From stdpp Require Import base list gmap strings.

Local Open Scope Z_scope.
Local Open Scope stdpp_scope.

#[local] Arguments String.append !_ _ / : simpl nomatch.

(** ** JavaScript string helpers *)

Module Js.

(** Truthiness of a string: [Boolean(s)], [if (s)], [s || t]. *)
Definition truthy (s : string) : bool :=
  match s with "" => false | String _ _ => true end.

(** [a || b] on strings. *)
Definition or_else (a b : string) : string := if truthy a then a else b.

(** [s.startsWith(p)]. *)
Fixpoint startsWith (p s : string) : bool :=
  match p, s with
  | "", _ => true
  | String a p', String b s' => bool_decide (a = b) && startsWith p' s'
  | String _ _, "" => false
  end.

(** [s.slice(1)]. *)
Definition slice1 (s : string) : string :=
  match s with "" => "" | String _ r => r end.

(** [s.includes(c)] for a one-character needle. *)
Fixpoint includes (c : ascii) (s : string) : bool :=
  match s with
  | "" => false
  | String a r => if decide (a = c) then true else includes c r
  end.

(** White space in the sense of [String.prototype.trim], restricted to
    the code units below 256: TAB, LF, VT, FF, CR, SPACE and NBSP. *)
Definition is_white_space (c : ascii) : bool :=
  match nat_of_ascii c with
  | 9%nat | 10%nat | 11%nat | 12%nat | 13%nat | 32%nat | 160%nat => true
  | _ => false
  end.

Fixpoint trimStart (s : string) : string :=
  match s with
  | "" => ""
  | String c r => if is_white_space c then trimStart r else s
  end.

Fixpoint trimEnd (s : string) : string :=
  match s with
  | "" => ""
  | String c r =>
      let r' := trimEnd r in
      if is_white_space c && negb (truthy r') then "" else String c r'
  end.

(** [s.trim()]. *)
Definition trim (s : string) : string := trimEnd (trimStart s).

(** The character class [\d]. *)
Definition is_digit (c : ascii) : bool :=
  let n := nat_of_ascii c in (48 <=? n)%nat && (n <=? 57)%nat.

Fixpoint all_digits (s : string) : bool :=
  match s with
  | "" => true
  | String c r => is_digit c && all_digits r
  end.

(** [/^\d+$/.test(s)]. *)
Definition test_digits (s : string) : bool := truthy s && all_digits s.

(** Decimal rendering of an array index in a template literal. *)
Definition of_nat (n : nat) : string :=
  NilEmpty.string_of_uint (Nat.to_uint n).

End Js.

(** ** Path tokenizer: [parseJsonPath] *)

(** [if (buf) tokens.push(buf), (buf = "")]: the token list after the flush
    (the buffer is reset by the caller). *)
Definition flush (buf : string) (tokens : list string) : list string :=
  if Js.truthy buf then tokens ++ [buf] else tokens.

(** [if (s[i] === ".") i++]. *)
Definition eat_dot (s : string) : string :=
  match s with
  | String c r => if decide (c = "."%char) then r else s
  | "" => s
  end.

(** The main [while (i < s.length)] loop; the argument [s] is the part of
    the input from position [i] on.  The inner [while] loop collecting the
    bracket content is the local [bracket]. *)
Fixpoint scan (s : string) (buf : string) (tokens : list string)
  : option (list string) :=
  match s with
  | "" => Some (flush buf tokens)
  | String ch rest =>
      if decide (ch = "."%char) then scan rest "" (flush buf tokens)
      else if decide (ch = "["%char) then
        let tokens := flush buf tokens in
        (fix bracket (r : string) (acc : string) {struct r}
           : option (list string) :=
           match r with
           | "" => None
           | String c r' =>
               if decide (c = "]"%char) then
                 let idx := Js.trim acc in
                 if negb (Js.test_digits idx) then None
                 else scan (eat_dot r') "" (tokens ++ ["[" +:+ idx +:+ "]"])
               else bracket r' (acc +:+ String c "")
           end) rest ""
      else scan rest (buf +:+ String ch "") tokens
  end.

Definition parseJsonPath (input : string) : option (list string) :=
  if negb (Js.truthy input) then Some []
  else
    let s := Js.trim input in
    let s := if Js.startsWith "$" s then Js.slice1 s else s in
    let s := if Js.startsWith "." s then Js.slice1 s else s in
    match scan s "" [] with
    | None => None
    | Some tokens => Some (filter (λ t, Is_true (Js.truthy t)) tokens)
    end.

(** ** Path composer: [makeChildPath] *)

Definition makeChildPath (parentPath key : string) : string :=
  if Js.startsWith "[" key then
    if Js.truthy parentPath then parentPath +:+ key else key
  else
    if Js.truthy parentPath then parentPath +:+ "." +:+ key else key.

(** ** JSON values, nodes and edges *)

(** A parsed JSON value.  An object lists its members in the order of
    [Object.keys]; a primitive (string, number, boolean, null) is carried
    as the text [JSON.stringify] prints for it. *)
#[warnings="-register-all"]
Inductive json : Type :=
| JObject (members : list (string * json))
| JArray (items : list json)
| JPrimitive (literal : string).

(** JavaScript objects hold a key once: the member keys of every object of
    a value the program can receive are pairwise distinct. *)
Fixpoint distinct_keys (v : json) : Prop :=
  match v with
  | JObject members =>
      NoDup (map fst members) ∧
      (fix all (l : list (string * json)) : Prop :=
         match l with
         | [] => True
         | kv :: l' => distinct_keys kv.2 ∧ all l'
         end) members
  | JArray items =>
      (fix all (l : list json) : Prop :=
         match l with
         | [] => True
         | x :: l' => distinct_keys x ∧ all l'
         end) items
  | JPrimitive _ => True
  end.

Inductive node_type : Type := object | array | primitive.

(** [type.toUpperCase()]. *)
Definition type_upper (t : node_type) : string :=
  match t with
  | object => "OBJECT" | array => "ARRAY" | primitive => "PRIMITIVE"
  end.

(** A React Flow node: [{ id, position: { x, y }, data: { label, tooltip,
    type }, style }].  The [style] object only depends on [type] through
    the constant [COLORS] table and is left out. *)
Module Node.
Record t : Type := mk {
  id : string;
  x : Z;
  y : Z;
  label : string;
  tooltip : string;
  type : node_type
}.
End Node.

(** A React Flow edge: [{ id, source, target }]. *)
Module Edge.
Record t : Type := mk {
  id : string;
  source : string;
  target : string
}.
End Edge.

(** ** Tree-to-graph builder: [buildFlowFromJSON] *)

Definition X_STEP : Z := 260.
Definition Y_STEP : Z := 110.

(** The variables [buildFlowFromJSON] closes over and its inner functions
    mutate: the arrays [nodes] and [edges] and the object
    [leafOrderAtDepth], keyed by depth. *)
Record flow : Type := mkFlow {
  nodes : list Node.t;
  edges : list Edge.t;
  leafOrderAtDepth : gmap nat nat
}.

Definition nodeTypeOf (value : json) : node_type :=
  match value with
  | JArray _ => array
  | JObject _ => object
  | JPrimitive _ => primitive
  end.

Definition addNode (id label : string) (type : node_type) (depth : nat)
    (tooltip : string) (st : flow) : flow :=
  let order := default 0%nat (leafOrderAtDepth st !! depth) in
  let x := Z.of_nat order * X_STEP in
  let y := Z.of_nat depth * Y_STEP in
  {| nodes := nodes st ++ [Node.mk id x y label tooltip type];
     edges := edges st;
     leafOrderAtDepth := <[depth := S order]> (leafOrderAtDepth st) |}.

Definition push_edge (e : Edge.t) (st : flow) : flow :=
  {| nodes := nodes st; edges := edges st ++ [e];
     leafOrderAtDepth := leafOrderAtDepth st |}.

(** [`[${idx}]`]. *)
Definition index_key (idx : nat) : string := "[" +:+ Js.of_nat idx +:+ "]".

Definition newline : string := String (ascii_of_nat 10) "".

(** [traverse(value, path, depth, parentId, keyLabel)]; [parentId] is
    [null] at the root.  The two [forEach] loops are the local [members]
    and [elements]; [elements] carries the running index [idx]. *)
Fixpoint traverse (value : json) (path : string) (depth : nat)
    (parentId : option string) (keyLabel : string) (st : flow) : flow :=
  let type := nodeTypeOf value in
  let nodeLabel :=
    match value with
    | JObject _ => keyLabel +:+ " { }"
    | JArray _ => keyLabel +:+ " [ ]"
    | JPrimitive literal => keyLabel +:+ ": " +:+ literal
    end in
  let self := Js.or_else path keyLabel in
  let tooltip := self +:+ newline +:+ type_upper type in
  let st := addNode self nodeLabel type depth tooltip st in
  let st :=
    match parentId with
    | Some p =>
        if Js.truthy p
        then push_edge (Edge.mk (p +:+ "->" +:+ self) p self) st
        else st
    | None => st
    end in
  match value with
  | JObject members =>
      (fix members_loop (l : list (string * json)) (st : flow) : flow :=
         match l with
         | [] => st
         | (k, child) :: l' =>
             let childPath := makeChildPath path k in
             members_loop l'
               (traverse child childPath (S depth) (Some self) k st)
         end) members st
  | JArray items =>
      (fix elements (l : list json) (idx : nat) (st : flow) : flow :=
         match l with
         | [] => st
         | item :: l' =>
             let k := index_key idx in
             let childPath := makeChildPath path k in
             elements l' (S idx)
               (traverse item childPath (S depth) (Some self) k st)
         end) items 0%nat st
  | JPrimitive _ => st
  end.

(** [Math.max(...cs)] seeded with its first argument. *)
Definition Math_max (c : nat) (cs : list nat) : nat := foldr Nat.max c cs.

(** [depthCounts.length ? Math.max(...depthCounts.map(([, c]) => c)) : 1]. *)
Definition maxCols_of (leafOrder : gmap nat nat) : nat :=
  match (map_to_list leafOrder).*2 with
  | [] => 1%nat
  | c :: cs => Math_max c cs
  end.

(** [((maxCols - 1) * X_STEP) / 2]; the product is even, so the division
    is exact. *)
Definition centerX_of (maxCols : nat) : Z :=
  ((Z.of_nat maxCols - 1) * X_STEP) / 2.

Definition shift_x (centerX : Z) (n : Node.t) : Node.t :=
  Node.mk (Node.id n) (Node.x n - centerX) (Node.y n)
          (Node.label n) (Node.tooltip n) (Node.type n).

Definition empty_flow : flow := mkFlow [] [] ∅.

Definition buildFlowFromJSON (value : json) : list Node.t * list Edge.t :=
  let st := traverse value "root" 0%nat None "root" empty_flow in
  let maxCols := maxCols_of (leafOrderAtDepth st) in
  let centerX := centerX_of maxCols in
  (map (shift_x centerX) (nodes st), edges st).

(** ** The application: [App] *)

(** The pieces of [App]'s state the callbacks below read and write.
    [nodes] and [edges] are the React Flow state that the effect keeps
    equal to the memoised [buildFlowFromJSON(json)]; [builds] counts the
    runs of the memoised builder. *)
Module App.
Record t : Type := mk {
  raw : string;
  error : string;
  json : json;
  nodes : list Node.t;
  edges : list Edge.t;
  query : string;
  matchMsg : string;
  highlightId : string;
  builds : nat
}.
End App.

(** [Object.is] on two parsed values: objects and arrays out of
    [JSON.parse] are fresh, primitives compare by value.  A primitive is
    held as the text [JSON.stringify] prints for it, which is ["0"] for
    zero and for negative zero alike, so the two zeros, which [Object.is]
    tells apart, are not told apart here. *)
Definition same_value (a b : json) : bool :=
  match a, b with
  | JPrimitive x, JPrimitive y => bool_decide (x = y)
  | _, _ => false
  end.

Definition setError (msg : string) (st : App.t) : App.t :=
  App.mk (App.raw st) msg (App.json st) (App.nodes st) (App.edges st)
         (App.query st) (App.matchMsg st) (App.highlightId st) (App.builds st).

(** [setJson(v)] followed by the render it causes: when the dependency of
    [useMemo] changed, the builder runs and the effect stores its result
    and clears the highlight and the match message. *)
Definition setJson (v : json) (st : App.t) : App.t :=
  if same_value (App.json st) v then st
  else
    let built := buildFlowFromJSON v in
    App.mk (App.raw st) (App.error st) v built.1 built.2
           (App.query st) "" "" (S (App.builds st)).

Definition setMatchMsg (msg : string) (st : App.t) : App.t :=
  App.mk (App.raw st) (App.error st) (App.json st) (App.nodes st)
         (App.edges st) (App.query st) msg (App.highlightId st)
         (App.builds st).

Definition setHighlightId (id : string) (st : App.t) : App.t :=
  App.mk (App.raw st) (App.error st) (App.json st) (App.nodes st)
         (App.edges st) (App.query st) (App.matchMsg st) id (App.builds st).

Definition invalid_json_message : string :=
  "Invalid JSON. Please fix the syntax and try again.".

Section Visualize.

(** [JSON.parse]: [None] when it throws. *)
Variable JSON_parse : string → option json.

Definition visualize (st : App.t) : App.t :=
  let st := setError "" st in
  match JSON_parse (App.raw st) with
  | Some parsed => setJson parsed st
  | None => setError invalid_json_message st
  end.

End Visualize.

(** [nodes.find((n) => n.id === path)]. *)
Definition find_by_id (path : string) (nodes : list Node.t) : option Node.t :=
  List.find (λ n, bool_decide (Node.id n = path)) nodes.

(** The path [findNodeByPath] composes from the tokens. *)
Definition compose_path (tokens : list string) : string :=
  fold_left makeChildPath tokens "root".

Definition findNodeByPath (nodes : list Node.t) (pathStr : string)
  : option Node.t :=
  match parseJsonPath pathStr with
  | None => None
  | Some tokens => find_by_id (compose_path tokens) nodes
  end.

(** The constant [normalized] of [doSearch]. *)
Definition normalized (q : string) : string :=
  if Js.startsWith "$" q || Js.startsWith "root" q
     || Js.includes "["%char q || Js.includes "."%char q
  then q else "$." +:+ q.

(** What [doSearch] looks up: nothing for a blank query, else the result of
    [findNodeByPath] on the normalized query. *)
Inductive lookup_result : Type :=
| NoLookup
| NotFound
| Found (n : Node.t).

Definition resolve (nodes : list Node.t) (query : string) : lookup_result :=
  let q := Js.trim query in
  if negb (Js.truthy q) then NoLookup
  else
    match findNodeByPath nodes (normalized q) with
    | None => NotFound
    | Some n => Found n
    end.

Definition doSearch (st : App.t) : App.t :=
  let st := setMatchMsg "" st in
  match resolve (App.nodes st) (App.query st) with
  | NoLookup => st
  | NotFound => setMatchMsg "No match found" (setHighlightId "" st)
  | Found n => setMatchMsg "Match found" (setHighlightId (Node.id n) st)
  end.

(** [node.id.replace(/^root\.?/, "")], the text [onNodeClick] copies. *)
Definition copied_path (id : string) : string :=
  if Js.startsWith "root" id then
    eat_dot (String.substring 4 (String.length id - 4) id)
  else id.

(** ** Auxiliary definitions used by the statements *)

(** The inner [while] loop of [parseJsonPath] on its own: the content up
    to the first ["]"] and the input after it, or [None] when the input
    ends first. *)
Fixpoint read_bracket (r : string) (acc : string) : option (string * string) :=
  match r with
  | "" => None
  | String c r' =>
      if decide (c = "]"%char) then Some (acc, r')
      else read_bracket r' (acc +:+ String c "")
  end.

(** A character that ends a bare identifier. *)
Definition is_delim (c : ascii) : bool :=
  bool_decide (c = "."%char) || bool_decide (c = "["%char).

Fixpoint no_delim (s : string) : bool :=
  match s with
  | "" => true
  | String c r => negb (is_delim c) && no_delim r
  end.

(** The last character of a string. *)
Fixpoint last_char (s : string) : option ascii :=
  match s with
  | "" => None
  | String c "" => Some c
  | String _ r => last_char r
  end.

(** A string of white space only. *)
Fixpoint all_white_space (s : string) : bool :=
  match s with
  | "" => true
  | String c r => Js.is_white_space c && all_white_space r
  end.

(** The two [startsWith]/[slice] steps of [parseJsonPath]. *)
Definition strip_root (s : string) : string :=
  let s := if Js.startsWith "$" s then Js.slice1 s else s in
  if Js.startsWith "." s then Js.slice1 s else s.

(** The shapes of the tokens [parseJsonPath] emits: a bare identifier, or
    a bracketed run of digits. *)
Definition key_token (t : string) : Prop := t ≠ "" ∧ no_delim t = true.

Definition index_token (t : string) : Prop :=
  ∃ d, t = "[" +:+ d +:+ "]" ∧ Js.test_digits d = true.

Definition wf_token (t : string) : Prop := key_token t ∨ index_token t.

(** A key on the way to a position whose rendering can be read back: an
    object key without dot and opening bracket, or a bracketed index. *)
Definition plain_key (k : string) : Prop := no_delim k = true.

Definition path_key (k : string) : Prop := plain_key k ∨ index_token k.

(** An object key that a query can spell: not empty, without dot and
    opening bracket, not starting with the root marker ["$"], and without
    white space at either end. *)
Definition clean_key (k : string) : Prop :=
  no_delim k = true ∧
  match k with
  | "" => False
  | String c _ => Js.is_white_space c = false ∧ c ≠ "$"%char
  end ∧
  match last_char k with
  | Some c => Js.is_white_space c = false
  | None => True
  end.

(** The end of a segment: the end of the path or the start of the next
    segment. *)
Definition segment_end (t : string) : Prop :=
  match t with
  | "" => True
  | String c _ => is_delim c = true
  end.

(** What [makeChildPath] appends to a non-empty parent path. *)
Definition segment (key : string) : string :=
  if Js.startsWith "[" key then key else "." +:+ key.

Definition segments (keys : list string) : string :=
  foldr (λ k acc, segment k +:+ acc) "" keys.

(** A path has an empty key segment when a dot is followed by a dot, by an
    opening bracket, or by the end of the path. *)
Fixpoint has_empty_key (s : string) : bool :=
  match s with
  | "" => false
  | String c r =>
      (bool_decide (c = "."%char) &&
       match r with "" => true | String d _ => is_delim d end)
      || has_empty_key r
  end.

(** The bracket segments of a path string, following the specification's
    words: a segment starts at a ["["] met outside a bracket and runs to
    the next ["]"]; it is unterminated when the input ends first.
    [inside] is [Some acc] while a segment is open, [acc] being its content
    so far. *)
Inductive bracket_segment : Type :=
| Unterminated
| Bracket (content : string).

Fixpoint bracket_segments_from (inside : option string) (s : string)
  : list bracket_segment :=
  match s, inside with
  | "", None => []
  | "", Some _ => [Unterminated]
  | String c r, None =>
      if decide (c = "["%char) then bracket_segments_from (Some "") r
      else bracket_segments_from None r
  | String c r, Some acc =>
      if decide (c = "]"%char) then Bracket acc :: bracket_segments_from None r
      else bracket_segments_from (Some (acc +:+ String c "")) r
  end.

Definition bracket_segments : string → list bracket_segment :=
  bracket_segments_from None.

(** A segment makes the path malformed when it is unterminated or when its
    trimmed content is not a run of one or more digits. *)
Definition malformed (seg : bracket_segment) : Prop :=
  match seg with
  | Unterminated => True
  | Bracket content => Js.test_digits (Js.trim content) = false
  end.

(** The children of a value with the keys [traverse] passes down: the
    members of an object, the elements of an array under [index_key]. *)
Fixpoint indexed (idx : nat) (items : list json) : list (string * json) :=
  match items with
  | [] => []
  | item :: l => (index_key idx, item) :: indexed (S idx) l
  end.

Definition entries (value : json) : list (string * json) :=
  match value with
  | JObject members => members
  | JArray items => indexed 0%nat items
  | JPrimitive _ => []
  end.

(** The tree positions of a value in depth-first pre-order, each given by
    the keys on the way down from the value. *)
Fixpoint positions (value : json) : list (list string) :=
  [] ::
  match value with
  | JObject members =>
      (fix go (l : list (string * json)) : list (list string) :=
         match l with
         | [] => []
         | (k, child) :: l' => map (cons k) (positions child) ++ go l'
         end) members
  | JArray items =>
      (fix go (l : list json) (idx : nat) : list (list string) :=
         match l with
         | [] => []
         | item :: l' =>
             map (cons (index_key idx)) (positions item) ++ go l' (S idx)
         end) items 0%nat
  | JPrimitive _ => []
  end.

(** One call of [traverse]: the arguments it gives [addNode] and the
    [parentId] it tests before pushing an edge. *)
Record visit : Type := mkVisit {
  v_id : string;
  v_label : string;
  v_type : node_type;
  v_depth : nat;
  v_tooltip : string;
  v_parent : option string
}.

Definition nodeLabel_of (value : json) (keyLabel : string) : string :=
  match value with
  | JObject _ => keyLabel +:+ " { }"
  | JArray _ => keyLabel +:+ " [ ]"
  | JPrimitive literal => keyLabel +:+ ": " +:+ literal
  end.

Definition visit_of (value : json) (path : string) (depth : nat)
    (parentId : option string) (keyLabel : string) : visit :=
  let self := Js.or_else path keyLabel in
  mkVisit self (nodeLabel_of value keyLabel) (nodeTypeOf value) depth
          (self +:+ newline +:+ type_upper (nodeTypeOf value)) parentId.

(** The calls of [traverse] below one call, in the order they are made. *)
Fixpoint visits (value : json) (path : string) (depth : nat)
    (parentId : option string) (keyLabel : string) : list visit :=
  let self := Js.or_else path keyLabel in
  visit_of value path depth parentId keyLabel ::
  match value with
  | JObject members =>
      (fix go (l : list (string * json)) : list visit :=
         match l with
         | [] => []
         | (k, child) :: l' =>
             visits child (makeChildPath path k) (S depth) (Some self) k
             ++ go l'
         end) members
  | JArray items =>
      (fix go (l : list json) (idx : nat) : list visit :=
         match l with
         | [] => []
         | item :: l' =>
             visits item (makeChildPath path (index_key idx)) (S depth)
                    (Some self) (index_key idx)
             ++ go l' (S idx)
         end) items 0%nat
  | JPrimitive _ => []
  end.

(** The effect of one call of [traverse] on the builder's variables,
    before it recurses. *)
Definition apply_visit (st : flow) (vis : visit) : flow :=
  let st := addNode (v_id vis) (v_label vis) (v_type vis) (v_depth vis)
                    (v_tooltip vis) st in
  match v_parent vis with
  | Some p =>
      if Js.truthy p
      then push_edge (Edge.mk (p +:+ "->" +:+ v_id vis) p (v_id vis)) st
      else st
  | None => st
  end.

(** The edge a call of [traverse] pushes, if any. *)
Definition edge_of (vis : visit) : option Edge.t :=
  match v_parent vis with
  | Some p =>
      if Js.truthy p then Some (Edge.mk (p +:+ "->" +:+ v_id vis) p (v_id vis))
      else None
  | None => None
  end.

(** The edge into the node at the non-root position [keys] below the
    node with id [path]. *)
Definition edge_at (path : string) (keys : list string) : Edge.t :=
  let src := fold_left makeChildPath (removelast keys) path in
  let tgt := fold_left makeChildPath keys path in
  Edge.mk (src +:+ "->" +:+ tgt) src tgt.

(** The depths of the nodes of a value in depth-first pre-order: the
    depth of a position is the number of keys leading to it. *)
Definition preorder_depths (value : json) : list nat :=
  length <$> positions value.

(** The number of times [d] occurs in [ds]. *)
Definition occurrences (d : nat) (ds : list nat) : nat :=
  length (filter (λ x, x = d) ds).

(** The node [addNode] makes for a visit that comes after the visits at
    depths [seen]. *)
Definition node_at (seen : list nat) (vis : visit) : Node.t :=
  Node.mk (v_id vis)
    (Z.of_nat (occurrences (v_depth vis) seen) * X_STEP)
    (Z.of_nat (v_depth vis) * Y_STEP)
    (v_label vis) (v_tooltip vis) (v_type vis).

(** The largest number of nodes on one depth level, 1 when there is no
    node. *)
Definition max_cols (ds : list nat) : nat :=
  match ds with
  | [] => 1%nat
  | _ => max_list ((λ d, occurrences d ds) <$> ds)
  end.

(** Every object key of a value satisfies [Q]. *)
Fixpoint keys_satisfy (Q : string → Prop) (v : json) : Prop :=
  match v with
  | JObject members =>
      (fix all (l : list (string * json)) : Prop :=
         match l with
         | [] => True
         | kv :: l' => (Q kv.1 ∧ keys_satisfy Q kv.2) ∧ all l'
         end) members
  | JArray items =>
      (fix all (l : list json) : Prop :=
         match l with
         | [] => True
         | x :: l' => keys_satisfy Q x ∧ all l'
         end) items
  | JPrimitive _ => True
  end.

(** The graph relation of an edge list, and the edges into a node. *)
Definition edge_rel (es : list Edge.t) (a b : string) : Prop :=
  ∃ e, e ∈ es ∧ Edge.source e = a ∧ Edge.target e = b.

Definition incoming (es : list Edge.t) (id : string) : list Edge.t :=
  filter (λ e, Edge.target e = id) es.

(** An input with two positions that are given the same id:
    [{"a": {"b": 1}, "a.b": 2}]. *)
Definition colliding_value : json :=
  JObject [("a", JObject [("b", JPrimitive "1")]); ("a.b", JPrimitive "2")].

(** The input of scenario B: [{"items": [{"id": 1}]}]. *)
Definition scenario_B_value : json :=
  JObject [("items", JArray [JObject [("id", JPrimitive "1")]])].


(** An object key that holds no opening bracket. *)
Definition bracket_free_key (k : string) : Prop :=
  Js.includes "["%char k = false.


(** ** Further definitions: the rest of [App] *)

(** The number of values in a JSON document. *)
Fixpoint json_size (v : json) : nat :=
  S match v with
    | JObject members =>
        (fix go (l : list (string * json)) : nat :=
           match l with
           | [] => 0
           | (_, child) :: l' => json_size child + go l'
           end) members
    | JArray items =>
        (fix go (l : list json) : nat :=
           match l with
           | [] => 0
           | item :: l' => json_size item + go l'
           end) items
    | JPrimitive _ => 0
    end%nat.

(** The values of a document in depth-first pre-order, each with its
    position. *)
Fixpoint located (value : json) : list (list string * json) :=
  ([], value) ::
  match value with
  | JObject members =>
      (fix go (l : list (string * json)) : list (list string * json) :=
         match l with
         | [] => []
         | (k, child) :: l' =>
             map (prod_map (cons k) id) (located child) ++ go l'
         end) members
  | JArray items =>
      (fix go (l : list json) (idx : nat) : list (list string * json) :=
         match l with
         | [] => []
         | item :: l' =>
             map (prod_map (cons (index_key idx)) id) (located item)
             ++ go l' (S idx)
         end) items 0%nat
  | JPrimitive _ => []
  end.

(** The [keyLabel] of the call of [traverse] at a position: its last key,
    ["root"] at the root. *)
Definition key_of (ks : list string) : string := List.last ks "root".

(** The call of [traverse] for the value [sub] at the position [ks] below
    a call with the given arguments. *)
Definition visit_at (path : string) (depth : nat) (parentId : option string)
    (keyLabel : string) (at_ : list string * json) : visit :=
  visit_of at_.2 (fold_left makeChildPath at_.1 path)
    (depth + length at_.1)
    (match at_.1 with
     | [] => parentId
     | _ => Some (fold_left makeChildPath (removelast at_.1) path)
     end)
    (List.last at_.1 keyLabel).

(** The [style] object of a node: the one [addNode] builds from the
    [COLORS] table, and the fields [decoratedNodes] overrides. *)
Module Style.
Record t : Type := mk {
  background : string;
  border : string;
  borderRadius : Z;
  padding : Z;
  fontSize : Z;
  width : Z;
  boxShadow : option string
}.
End Style.

Definition COLORS_bg (type : node_type) : string :=
  match type with
  | object => "#e0e7ff" | array => "#dcfce7" | primitive => "#ffedd5"
  end.

Definition COLORS_border (type : node_type) : string :=
  match type with
  | object => "#6366f1" | array => "#22c55e" | primitive => "#f97316"
  end.

Definition COLORS_highlight_border : string := "#f59e0b".
Definition COLORS_highlight_shadow : string :=
  "0 0 0 3px rgba(245, 158, 11, 0.35)".

(** The [style] of [addNode]. *)
Definition node_style (type : node_type) : Style.t :=
  Style.mk (COLORS_bg type) ("2px solid " +:+ COLORS_border type)
           12 10 12 220 None.

(** One step of the [map] of [decoratedNodes]: a node with its style. *)
Definition decorate (highlightId : string) (n : Node.t) : Node.t * Style.t :=
  let style := node_style (Node.type n) in
  if bool_decide (Node.id n = highlightId) then
    (n, Style.mk (Style.background style)
          ("3px solid " +:+ COLORS_highlight_border)
          (Style.borderRadius style) (Style.padding style)
          (Style.fontSize style) (Style.width style)
          (Some COLORS_highlight_shadow))
  else (n, style).

Definition decoratedNodes (st : App.t) : list (Node.t * Style.t) :=
  decorate (App.highlightId st) <$> App.nodes st.

(** A decorated node is drawn highlighted when it carries the shadow. *)
Definition highlighted (d : Node.t * Style.t) : Prop :=
  Style.boxShadow d.2 = Some COLORS_highlight_shadow.

Definition setRaw (raw : string) (st : App.t) : App.t :=
  App.mk raw (App.error st) (App.json st) (App.nodes st) (App.edges st)
         (App.query st) (App.matchMsg st) (App.highlightId st) (App.builds st).

Definition setQuery (query : string) (st : App.t) : App.t :=
  App.mk (App.raw st) (App.error st) (App.json st) (App.nodes st)
         (App.edges st) query (App.matchMsg st) (App.highlightId st)
         (App.builds st).

(** The page: [App]'s state with the toast, the theme and the clipboard
    the callbacks write to. *)
Module Page.
Record t : Type := mk {
  app : App.t;
  toast : string;
  dark : bool;
  clipboard : option string
}.
End Page.

(** [clearAll]: the empty object literal is a new object on every call,
    so the builder always runs again. *)
Definition clearAll (p : Page.t) : Page.t :=
  Page.mk
    (setMatchMsg ""
       (setHighlightId ""
          (setQuery "" (setJson (JObject []) (setRaw "{}" (Page.app p))))))
    "" (Page.dark p) (Page.clipboard p).

(** [onNodeClick]; [supported] tells whether [navigator.clipboard] and its
    [writeText] exist.  The timer that clears the toast later is the event
    [CloseToast] below. *)
Definition onNodeClick (supported : bool) (node : Node.t) (p : Page.t)
  : Page.t :=
  let text := copied_path (Node.id node) in
  if supported then
    Page.mk (Page.app p) "JSON path copied to clipboard" (Page.dark p)
            (Some text)
  else
    Page.mk (Page.app p) "Copying not supported in this browser"
            (Page.dark p) (Page.clipboard p).

(** The events of the page handled by the callbacks modelled above:
    typing into the two inputs, [visualize], [clearAll], [doSearch],
    [onNodeClick], closing the toast and toggling the theme.  The button
    "Load Sample" ([fillSample], which calls [setJson] too) and the
    handlers that React Flow supplies or feeds ([onConnect],
    [onNodesChange], [onEdgesChange]) are not among them. *)
Inductive event : Type :=
| TypeRaw (text : string)
| TypeQuery (text : string)
| Visualize
| ClearAll
| Search
| NodeClick (supported : bool) (node : Node.t)
| CloseToast
| ToggleTheme.

Definition on_app (f : App.t → App.t) (p : Page.t) : Page.t :=
  Page.mk (f (Page.app p)) (Page.toast p) (Page.dark p) (Page.clipboard p).

Section Events.

Variable JSON_parse : string → option json.

Definition handle (e : event) (p : Page.t) : Page.t :=
  match e with
  | TypeRaw text => on_app (setRaw text) p
  | TypeQuery text => on_app (setQuery text) p
  | Visualize => on_app (visualize JSON_parse) p
  | ClearAll => clearAll p
  | Search => on_app doSearch p
  | NodeClick supported node => onNodeClick supported node p
  | CloseToast => Page.mk (Page.app p) "" (Page.dark p) (Page.clipboard p)
  | ToggleTheme =>
      Page.mk (Page.app p) (Page.toast p) (negb (Page.dark p))
              (Page.clipboard p)
  end.

(** A run of events, first event first. *)
Definition run (es : list event) (p : Page.t) : Page.t :=
  fold_left (λ p e, handle e p) es p.

End Events.

(** Those of the events above whose handler calls [setJson]. *)
Definition rebuilds (e : event) : bool :=
  match e with
  | Visualize | ClearAll => true
  | _ => false
  end.

(** The graph shown is the one built from the JSON value held, and the
    highlight, when set, names one of its nodes. *)
Definition shows_built_graph (st : App.t) : Prop :=
  App.nodes st = (buildFlowFromJSON (App.json st)).1 ∧
  App.edges st = (buildFlowFromJSON (App.json st)).2 ∧
  (App.highlightId st = "" ∨
   ∃ n, n ∈ App.nodes st ∧ Node.id n = App.highlightId st).

(** The first position at which a node of the list has the given id. *)
Definition first_with_id (path : string) (nodes : list Node.t) (i : nat)
    (n : Node.t) : Prop :=
  nodes !! i = Some n ∧ Node.id n = path ∧
  ∀ j m, (j < i)%nat → nodes !! j = Some m → Node.id m ≠ path.

(** * Properties *)

(** ** Strings *)

Section Strings.

Lemma app_empty_r (s : string) : s +:+ "" = s.
Proof. induction s as [|c s IH]; simpl; [done | by rewrite IH]. Qed.

Lemma app_assoc_s (a b c : string) : (a +:+ b) +:+ c = a +:+ (b +:+ c).
Proof. induction a as [|x a IH]; simpl; [done | by rewrite IH]. Qed.

Lemma app_length_s (a b : string) :
  String.length (a +:+ b) = (String.length a + String.length b)%nat.
Proof. induction a as [|x a IH]; simpl; [done | by rewrite IH]. Qed.

Lemma app_snoc (a : string) (c : ascii) (b : string) :
  (a +:+ String c "") +:+ b = a +:+ String c b.
Proof. by rewrite app_assoc_s. Qed.

Lemma app_eq_empty (a b : string) : a +:+ b = "" → a = "" ∧ b = "".
Proof. destruct a; simpl; [done | discriminate]. Qed.

Lemma truthy_true (s : string) : Js.truthy s = true ↔ s ≠ "".
Proof. destruct s; simpl; split; try done. Qed.

Lemma truthy_false (s : string) : Js.truthy s = false ↔ s = "".
Proof. destruct s; simpl; split; try done. Qed.

Lemma truthy_app_l (a b : string) :
  Js.truthy a = true → Js.truthy (a +:+ b) = true.
Proof. by destruct a. Qed.

Lemma app_inv_head_s (a b c : string) : a +:+ b = a +:+ c → b = c.
Proof. apply String.app_inj. Qed.

Lemma app_inv_tail_s (a b c : string) : a +:+ c = b +:+ c → a = b.
Proof.
  revert b. induction a as [|x a IH]; intros [|y b] H; simpl in *.
  - done.
  - apply (f_equal String.length) in H. simpl in H.
    rewrite app_length_s in H. lia.
  - apply (f_equal String.length) in H. simpl in H.
    rewrite app_length_s in H. lia.
  - injection H as -> H. f_equal. by apply IH.
Qed.

Lemma startsWith_app (p s : string) : Js.startsWith p (p +:+ s) = true.
Proof.
  induction p as [|c p IH]; simpl; [done|].
  by rewrite bool_decide_eq_true_2.
Qed.

Lemma startsWith_char (c d : ascii) (s : string) :
  Js.startsWith (String c "") (String d s) = bool_decide (c = d).
Proof. simpl. by rewrite andb_true_r. Qed.

Lemma last_char_app (a : string) (c : ascii) (b : string) :
  last_char (a +:+ String c b) = last_char (String c b).
Proof.
  induction a as [|x a IH]; [done|].
  change (String x a +:+ String c b) with (String x (a +:+ String c b)).
  simpl last_char at 1. rewrite IH.
  destruct (a +:+ String c b) eqn:E; [|done].
  by destruct a.
Qed.

Lemma last_char_snoc (a : string) (c : ascii) :
  last_char (a +:+ String c "") = Some c.
Proof. by rewrite last_char_app. Qed.

End Strings.

(** ** [trim] *)

Section Trim.

Lemma trimStart_shape (s : string) :
  Js.trimStart s = "" ∨
  ∃ c r, Js.trimStart s = String c r ∧ Js.is_white_space c = false.
Proof.
  induction s as [|c s IH]; simpl; [by left|].
  destruct (Js.is_white_space c) eqn:E; [done|].
  right. by exists c, s.
Qed.


Lemma trimEnd_idem (s : string) : Js.trimEnd (Js.trimEnd s) = Js.trimEnd s.
Proof.
  induction s as [|c s IH]; simpl; [done|].
  destruct (Js.is_white_space c && negb (Js.truthy (Js.trimEnd s))) eqn:E;
    simpl; [done|].
  by rewrite IH, E.
Qed.

Lemma trimEnd_cons (c : ascii) (r : string) :
  Js.trimEnd (String c r) =
  if Js.is_white_space c && negb (Js.truthy (Js.trimEnd r))
  then "" else String c (Js.trimEnd r).
Proof. reflexivity. Qed.

Lemma trimEnd_cons_keep (c : ascii) (r : string) :
  Js.is_white_space c = false →
  Js.trimEnd (String c r) = String c (Js.trimEnd r).
Proof. intros E. simpl. by rewrite E. Qed.

Lemma trim_idem (s : string) : Js.trim (Js.trim s) = Js.trim s.
Proof.
  unfold Js.trim.
  destruct (trimStart_shape s) as [->|(c & r & -> & E)]; [done|].
  rewrite trimEnd_cons_keep by done. simpl Js.trimStart. rewrite E.
  rewrite <- (trimEnd_cons_keep c r) by done. apply trimEnd_idem.
Qed.

Lemma trimStart_white (s : string) :
  all_white_space s = true → Js.trimStart s = "".
Proof.
  induction s as [|c s IH]; simpl; [done|].
  intros [-> H]%andb_true_iff. by apply IH.
Qed.

Lemma trim_white (s : string) : all_white_space s = true → Js.trim s = "".
Proof. intros H. unfold Js.trim. by rewrite trimStart_white. Qed.


Lemma trimEnd_id (s : string) :
  (∀ c, last_char s = Some c → Js.is_white_space c = false) →
  Js.trimEnd s = s.
Proof.
  induction s as [|c s IH]; [done|]. intros H.
  destruct s as [|d s].
  - simpl. by rewrite (H c).
  - assert (Js.trimEnd (String d s) = String d s) as E
      by (apply IH; intros x Hx; apply H; exact Hx).
    rewrite trimEnd_cons, E. simpl. by rewrite andb_false_r.
Qed.

Lemma trim_id (s : string) :
  (∀ c r, s = String c r → Js.is_white_space c = false) →
  (∀ c, last_char s = Some c → Js.is_white_space c = false) →
  Js.trim s = s.
Proof.
  intros Hfirst Hlast. unfold Js.trim.
  assert (Js.trimStart s = s) as ->; [|by apply trimEnd_id].
  destruct s as [|c r]; [done|]. simpl. by rewrite (Hfirst c r).
Qed.

End Trim.

(** ** The tokenizer *)

Section Tokenizer.

Lemma scan_dot (rest buf : string) (tokens : list string) :
  scan (String "."%char rest) buf tokens = scan rest "" (flush buf tokens).
Proof. reflexivity. Qed.

Lemma scan_other (ch : ascii) (rest buf : string) (tokens : list string) :
  is_delim ch = false →
  scan (String ch rest) buf tokens = scan rest (buf +:+ String ch "") tokens.
Proof.
  unfold is_delim. intros [H1 H2]%orb_false_iff.
  apply bool_decide_eq_false in H1, H2. simpl.
  destruct (decide (ch = "."%char)); [done|].
  destruct (decide (ch = "["%char)); [done|]. done.
Qed.

Lemma scan_bracket (rest buf : string) (tokens : list string) :
  scan (String "["%char rest) buf tokens =
  match read_bracket rest "" with
  | None => None
  | Some (acc, r') =>
      if negb (Js.test_digits (Js.trim acc)) then None
      else scan (eat_dot r') ""
             (flush buf tokens ++ ["[" +:+ Js.trim acc +:+ "]"])
  end.
Proof.
  simpl.
  match goal with
  | |- ?f rest "" = _ =>
      enough (∀ acc, f rest acc =
                match read_bracket rest acc with
                | None => None
                | Some (acc, r') =>
                    if negb (Js.test_digits (Js.trim acc)) then None
                    else scan (eat_dot r') ""
                           (flush buf tokens ++ ["[" +:+ Js.trim acc +:+ "]"])
                end) as H by apply H
  end.
  induction rest as [|c r IH]; intros acc; simpl; [done|].
  destruct (decide (c = "]"%char)); [done|]. apply IH.
Qed.

Lemma read_bracket_split (r acc a r' : string) :
  read_bracket r acc = Some (a, r') →
  ∃ content, a = acc +:+ content ∧ r = content +:+ String "]"%char r' ∧
             Js.includes "]"%char content = false.
Proof.
  revert acc. induction r as [|c r IH]; intros acc; simpl; [done|].
  destruct (decide (c = "]"%char)) as [->|Hc].
  - intros [= <- <-]. exists "". by rewrite app_empty_r.
  - intros (content & -> & -> & Hn)%IH.
    exists (String c content). rewrite app_snoc. split_and!; [done..|].
    simpl. by destruct (decide (c = "]"%char)).
Qed.

Lemma read_bracket_app (content r' acc : string) :
  Js.includes "]"%char content = false →
  read_bracket (content +:+ String "]"%char r') acc =
  Some (acc +:+ content, r').
Proof.
  revert acc. induction content as [|c content IH]; intros acc; simpl.
  - by rewrite app_empty_r.
  - destruct (decide (c = "]"%char)); [done|]. intros H.
    by rewrite IH, app_snoc.
Qed.


Lemma read_bracket_length (r acc a r' : string) :
  read_bracket r acc = Some (a, r') →
  (String.length r' < String.length r)%nat.
Proof.
  intros (content & _ & -> & _)%read_bracket_split.
  rewrite app_length_s. simpl. lia.
Qed.

Lemma eat_dot_length (s : string) :
  (String.length (eat_dot s) ≤ String.length s)%nat.
Proof.
  destruct s as [|c r]; simpl; [done|].
  destruct (decide (c = "."%char)); simpl; lia.
Qed.

(** Induction along the runs of the two loops of [parseJsonPath]. *)
Lemma scan_ind
    (P : string → string → list string → option (list string) → Prop) :
  (∀ buf tokens, P "" buf tokens (Some (flush buf tokens))) →
  (∀ rest buf tokens,
     P rest "" (flush buf tokens) (scan rest "" (flush buf tokens)) →
     P (String "."%char rest) buf tokens (scan rest "" (flush buf tokens))) →
  (∀ rest buf tokens,
     read_bracket rest "" = None → P (String "["%char rest) buf tokens None) →
  (∀ rest buf tokens acc r',
     read_bracket rest "" = Some (acc, r') →
     Js.test_digits (Js.trim acc) = false →
     P (String "["%char rest) buf tokens None) →
  (∀ rest buf tokens acc r',
     read_bracket rest "" = Some (acc, r') →
     Js.test_digits (Js.trim acc) = true →
     let tokens' := flush buf tokens ++ ["[" +:+ Js.trim acc +:+ "]"] in
     P (eat_dot r') "" tokens' (scan (eat_dot r') "" tokens') →
     P (String "["%char rest) buf tokens (scan (eat_dot r') "" tokens')) →
  (∀ ch rest buf tokens,
     is_delim ch = false →
     P rest (buf +:+ String ch "") tokens
       (scan rest (buf +:+ String ch "") tokens) →
     P (String ch rest) buf tokens
       (scan rest (buf +:+ String ch "") tokens)) →
  ∀ s buf tokens, P s buf tokens (scan s buf tokens).
Proof.
  intros Hnil Hdot Hunterm Hbad Hidx Hother s.
  remember (String.length s) as n eqn:Hn.
  revert s Hn. induction n as [n IH] using lt_wf_ind.
  intros [|ch rest] Hn buf tokens; [apply Hnil|].
  simpl in Hn.
  destruct (is_delim ch) eqn:Hd.
  - unfold is_delim in Hd. apply orb_true_iff in Hd as [Hd|Hd];
      apply bool_decide_eq_true in Hd; subst ch.
    + rewrite scan_dot. apply Hdot. apply (IH (String.length rest)); [lia|done].
    + rewrite scan_bracket.
      destruct (read_bracket rest "") as [[acc r']|] eqn:Hr;
        [|by apply Hunterm].
      destruct (Js.test_digits (Js.trim acc)) eqn:Ht; simpl;
        [|by eapply Hbad].
      eapply Hidx; [done..|].
      apply (IH (String.length (eat_dot r'))); [|done].
      apply read_bracket_length in Hr.
      pose proof (eat_dot_length r'). lia.
  - rewrite scan_other by done. apply Hother; [done|].
    apply (IH (String.length rest)); [lia|done].
Qed.

Lemma no_delim_app (a b : string) :
  no_delim (a +:+ b) = no_delim a && no_delim b.
Proof.
  induction a as [|c a IH]; simpl; [done|]. by rewrite IH, andb_assoc.
Qed.

Lemma flush_wf (buf : string) (tokens : list string) :
  no_delim buf = true → Forall wf_token tokens →
  Forall wf_token (flush buf tokens).
Proof.
  intros Hb Ht. unfold flush. destruct (Js.truthy buf) eqn:E; [|done].
  apply Forall_app. split; [done|]. apply Forall_singleton. left.
  split; [by apply truthy_true|done].
Qed.

Lemma scan_wf (s buf : string) (tokens ts : list string) :
  no_delim buf = true → Forall wf_token tokens →
  scan s buf tokens = Some ts → Forall wf_token ts.
Proof.
  revert ts.
  apply (scan_ind (λ s buf tokens res, ∀ ts,
    no_delim buf = true → Forall wf_token tokens →
    res = Some ts → Forall wf_token ts)); clear s buf tokens.
  - intros buf tokens ts Hb Ht [= <-]. by apply flush_wf.
  - intros rest buf tokens IH ts Hb Ht Hs.
    apply (IH ts); [done|by apply flush_wf|done].
  - done.
  - done.
  - intros rest buf tokens acc r' Hr Hd tokens' IH ts Hb Ht Hs.
    apply (IH ts); [done| |done]. apply Forall_app. split.
    + by apply flush_wf.
    + apply Forall_singleton. right. by exists (Js.trim acc).
  - intros ch rest buf tokens Hd IH ts Hb Ht Hs.
    apply (IH ts); [|done..].
    rewrite no_delim_app, Hb. simpl. by rewrite Hd.
Qed.

Lemma parseJsonPath_unfold (input : string) :
  parseJsonPath input =
  if negb (Js.truthy input) then Some []
  else filter (λ t, Is_true (Js.truthy t)) <$>
         scan (strip_root (Js.trim input)) "" [].
Proof.
  unfold parseJsonPath, strip_root. destruct (negb _); [done|].
  by destruct (scan _ _ _).
Qed.

Lemma parseJsonPath_blank (input : string) :
  Js.trim input = "" → parseJsonPath input = Some [].
Proof.
  intros H. rewrite parseJsonPath_unfold, H.
  by destruct (negb (Js.truthy input)).
Qed.

Lemma parseJsonPath_wf (input : string) (tokens : list string) :
  parseJsonPath input = Some tokens → Forall wf_token tokens.
Proof.
  rewrite parseJsonPath_unfold. destruct (negb _).
  - intros [= <-]. constructor.
  - destruct (scan _ _ _) as [ts|] eqn:E; [|done]. simpl. intros [= <-].
    apply scan_wf in E; [|done|constructor].
    apply Forall_forall. intros t [_ Ht]%list_elem_of_filter.
    by eapply Forall_forall in E.
Qed.

Lemma parseJsonPath_none (input : string) :
  parseJsonPath input = None ↔
  scan (strip_root (Js.trim input)) "" [] = None.
Proof.
  rewrite parseJsonPath_unfold. destruct input as [|c r]; simpl.
  - split; [done|]. by vm_compute.
  - by destruct (scan _ _ _).
Qed.

End Tokenizer.

(** ** The composer *)

Section Composer.

Lemma makeChildPath_segment (p key : string) :
  Js.truthy p = true → makeChildPath p key = p +:+ segment key.
Proof.
  intros Hp. unfold makeChildPath, segment. rewrite Hp.
  by destruct (Js.startsWith "[" key).
Qed.

Lemma fold_makeChildPath (keys : list string) (p : string) :
  Js.truthy p = true →
  fold_left makeChildPath keys p = p +:+ segments keys.
Proof.
  revert p. induction keys as [|k keys IH]; intros p Hp; simpl.
  - by rewrite app_empty_r.
  - rewrite makeChildPath_segment by done.
    rewrite IH by (by apply truthy_app_l). by rewrite app_assoc_s.
Qed.

Lemma compose_path_segments (tokens : list string) :
  compose_path tokens = "root" +:+ segments tokens.
Proof. by apply fold_makeChildPath. Qed.

Lemma segment_key (k : string) :
  key_token k → segment k = "." +:+ k.
Proof.
  intros [Hne Hk]. unfold segment. destruct k as [|c k]; [done|].
  simpl in Hk. apply andb_true_iff in Hk as [Hc _].
  unfold is_delim in Hc. apply negb_true_iff, orb_false_iff in Hc as [_ Hc].
  apply bool_decide_eq_false in Hc. rewrite startsWith_char.
  by rewrite bool_decide_eq_false_2.
Qed.

Lemma segment_index (d : string) :
  segment ("[" +:+ d +:+ "]") = "[" +:+ d +:+ "]".
Proof. done. Qed.

Lemma has_empty_key_plain (k t : string) :
  Js.includes "."%char k = false →
  k ≠ "" → has_empty_key (k +:+ t) = has_empty_key t.
Proof.
  induction k as [|c k IH]; [done|]. intros Hk _. simpl in *.
  destruct (decide (c = "."%char)) as [|Hc]; [done|].
  rewrite (bool_decide_eq_false_2 _ Hc). simpl.
  destruct k as [|d k]; [done|]. by apply IH.
Qed.

Lemma no_delim_no_dot (k : string) :
  no_delim k = true → Js.includes "."%char k = false.
Proof.
  induction k as [|c k IH]; simpl; [done|].
  intros [Hc Hk]%andb_true_iff.
  apply negb_true_iff, orb_false_iff in Hc as [Hc _].
  apply bool_decide_eq_false in Hc.
  destruct (decide (c = "."%char)); [done|]. by apply IH.
Qed.

Lemma digits_no_dot (d : string) :
  Js.all_digits d = true → Js.includes "."%char (d +:+ "]") = false.
Proof.
  induction d as [|c d IH]; simpl; [done|].
  intros [Hc Hd]%andb_true_iff.
  destruct (decide (c = "."%char)) as [->|]; [done|]. by apply IH.
Qed.


Lemma segments_no_empty_key (tokens : list string) :
  Forall wf_token tokens → has_empty_key (segments tokens) = false.
Proof.
  induction 1 as [|t ts Ht Hts IH]; [done|]. simpl.
  destruct Ht as [Hk|(d & -> & Hd)].
  - rewrite segment_key by done. destruct Hk as [Hne Hk].
    change (("." +:+ t) +:+ segments ts)
      with (String "."%char (t +:+ segments ts)).
    cbn [has_empty_key].
    rewrite has_empty_key_plain, IH by (by auto using no_delim_no_dot).
    destruct t as [|c t]; [done|]. simpl in *.
    apply andb_true_iff in Hk as [Hc _].
    apply negb_true_iff in Hc. by rewrite Hc.
  - rewrite segment_index.
    change (("[" +:+ d +:+ "]") +:+ segments ts)
      with (String "["%char ((d +:+ "]") +:+ segments ts)).
    cbn [has_empty_key]. simpl bool_decide. cbn [andb orb].
    apply andb_true_iff in Hd as [Hne Hd].
    rewrite has_empty_key_plain; [done|by apply digits_no_dot|].
    by destruct d.
Qed.

Lemma compose_path_no_empty_key (tokens : list string) :
  Forall wf_token tokens → has_empty_key (compose_path tokens) = false.
Proof.
  intros H. rewrite compose_path_segments.
  rewrite has_empty_key_plain by done. by apply segments_no_empty_key.
Qed.

Lemma has_empty_key_last (s : string) :
  has_empty_key s = false → last_char s ≠ Some "."%char.
Proof.
  induction s as [|c s IH]; [done|]. simpl.
  intros [H1 H2]%orb_false_iff. destruct s as [|d s].
  - rewrite andb_true_r in H1. apply bool_decide_eq_false in H1. congruence.
  - by apply IH.
Qed.

Lemma find_by_id_Some (path : string) (nodes : list Node.t) (n : Node.t) :
  find_by_id path nodes = Some n → Node.id n = path ∧ n ∈ nodes.
Proof.
  unfold find_by_id. intros [Hin Hb]%find_some.
  apply bool_decide_eq_true in Hb. split; [done|]. by apply list_elem_of_In.
Qed.

End Composer.

(** C9. Tokenization is insensitive to surrounding white space:
    [parseJsonPath] gives the same result on an input and on the input with
    leading and trailing white space removed, since it trims before it
    scans; an input made of white space only tokenizes to the empty
    sequence, which denotes the root. *)
Theorem parseJsonPath_trim_insensitive (s : string) :
  parseJsonPath s = parseJsonPath (Js.trim s) ∧
  (all_white_space s = true → parseJsonPath s = Some []).
Proof.
  split.
  - destruct (Js.truthy (Js.trim s)) eqn:E.
    + rewrite (parseJsonPath_unfold (Js.trim s)), trim_idem, E. simpl.
      rewrite parseJsonPath_unfold.
      destruct s; [done|]. done.
    + apply truthy_false in E.
      rewrite (parseJsonPath_blank s E). by rewrite E.
  - intros H. apply parseJsonPath_blank. by apply trim_white.
Qed.

Lemma parseJsonPath_trim_insensitive_witness :
  all_white_space "  " = true ∧
  parseJsonPath "  " = Some [] ∧
  parseJsonPath " a.b[0] " = parseJsonPath (Js.trim " a.b[0] ").
Proof.
  split; [reflexivity|]. split.
  - apply (parseJsonPath_trim_insensitive "  "). reflexivity.
  - apply (parseJsonPath_trim_insensitive " a.b[0] ").
Defined.

(** ** Malformed paths *)

Section Malformed.

Lemma segments_inside (r acc : string) :
  bracket_segments_from (Some acc) r =
  match read_bracket r acc with
  | None => [Unterminated]
  | Some (a, r') => Bracket a :: bracket_segments r'
  end.
Proof.
  revert acc. induction r as [|c r IH]; intros acc; simpl; [done|].
  destruct (decide (c = "]"%char)); [done|]. apply IH.
Qed.

Lemma segments_eat_dot (r : string) :
  bracket_segments (eat_dot r) = bracket_segments r.
Proof.
  destruct r as [|c r]; simpl; [done|].
  destruct (decide (c = "."%char)) as [->|]; done.
Qed.

Lemma segments_other (c : ascii) (r : string) :
  c ≠ "["%char → bracket_segments (String c r) = bracket_segments r.
Proof.
  intros Hc. unfold bracket_segments. simpl.
  by destruct (decide (c = "["%char)).
Qed.

Lemma scan_none (s buf : string) (tokens : list string) :
  scan s buf tokens = None ↔ Exists malformed (bracket_segments s).
Proof.
  apply (scan_ind (λ s buf tokens res,
    res = None ↔ Exists malformed (bracket_segments s)));
    clear s buf tokens.
  - intros buf tokens. split; [done|]. by intros ?%Exists_nil.
  - intros rest buf tokens IH. by rewrite segments_other.
  - intros rest buf tokens Hr. split; [intros _|done].
    unfold bracket_segments. simpl. rewrite segments_inside, Hr.
    by apply Exists_cons_hd.
  - intros rest buf tokens acc r' Hr Hd. split; [intros _|done].
    unfold bracket_segments. simpl. rewrite segments_inside, Hr.
    by apply Exists_cons_hd.
  - intros rest buf tokens acc r' Hr Hd tokens' IH. rewrite IH.
    rewrite segments_eat_dot. unfold bracket_segments at 2. simpl.
    rewrite segments_inside, Hr. rewrite Exists_cons. simpl.
    rewrite Hd. split; [by right|by intros [|]].
  - intros ch rest buf tokens Hd IH. rewrite IH, segments_other; [done|].
    intros ->. done.
Qed.

Lemma white_space_not_bracket (c : ascii) :
  Js.is_white_space c = true → c ≠ "["%char ∧ c ≠ "]"%char.
Proof. split; intros ->; done. Qed.

Lemma segments_trimStart (s : string) :
  bracket_segments (Js.trimStart s) = bracket_segments s.
Proof.
  induction s as [|c s IH]; simpl; [done|].
  destruct (Js.is_white_space c) eqn:E; [|done].
  rewrite segments_other; [done|]. by apply white_space_not_bracket.
Qed.

Lemma segments_trimEnd (inside : option string) (s : string) :
  bracket_segments_from inside (Js.trimEnd s) =
  bracket_segments_from inside s.
Proof.
  revert inside. induction s as [|c s IH]; intros inside; [done|].
  rewrite trimEnd_cons.
  destruct (Js.is_white_space c && negb (Js.truthy (Js.trimEnd s))) eqn:E.
  - apply andb_true_iff in E as [Hc Hs].
    apply negb_true_iff, truthy_false in Hs.
    apply white_space_not_bracket in Hc as [H1 H2].
    destruct inside as [acc|]; simpl.
    + destruct (decide (c = "]"%char)); [done|]. by rewrite <- IH, Hs.
    + destruct (decide (c = "["%char)); [done|]. by rewrite <- IH, Hs.
  - destruct inside as [acc|]; simpl.
    + destruct (decide (c = "]"%char)); by rewrite IH.
    + destruct (decide (c = "["%char)); by rewrite IH.
Qed.

Lemma segments_strip_root (s : string) :
  bracket_segments (strip_root s) = bracket_segments s.
Proof.
  assert (∀ c t, c ≠ "["%char →
    bracket_segments (if Js.startsWith (String c "") t then Js.slice1 t else t)
    = bracket_segments t) as H.
  { intros c [|d t] Hc; [done|]. rewrite startsWith_char.
    case_bool_decide; [subst d|done]. simpl Js.slice1.
    by rewrite segments_other. }
  unfold strip_root. by rewrite !H.
Qed.

Lemma segments_prepared (input : string) :
  bracket_segments (strip_root (Js.trim input)) = bracket_segments input.
Proof.
  rewrite segments_strip_root. unfold Js.trim, bracket_segments.
  rewrite segments_trimEnd. apply segments_trimStart.
Qed.

Lemma parseJsonPath_malformed (input : string) :
  parseJsonPath input = None ↔ Exists malformed (bracket_segments input).
Proof. by rewrite parseJsonPath_none, scan_none, segments_prepared. Qed.

End Malformed.

(** ** JSON values *)

Section Json.

Lemma json_members_ind (P : json → Prop) :
  (∀ members, Forall (λ kv, P kv.2) members → P (JObject members)) →
  (∀ items, Forall P items → P (JArray items)) →
  (∀ literal, P (JPrimitive literal)) →
  ∀ v, P v.
Proof.
  intros Hobj Harr Hprim.
  fix IH 1. intros [members|items|literal].
  - apply Hobj. induction members as [|[k c] l IHl]; constructor; auto.
  - apply Harr. induction items as [|c l IHl]; constructor; auto.
  - apply Hprim.
Qed.

Lemma Forall_indexed (P : json → Prop) (items : list json) (idx : nat) :
  Forall P items → Forall (λ kv, P kv.2) (indexed idx items).
Proof.
  intros H. revert idx. induction H as [|x l Hx Hl IH]; intros idx; simpl;
    constructor; auto.
Qed.

(** Induction on a value through its [entries]. *)
Lemma json_entries_ind (P : json → Prop) :
  (∀ v, Forall (λ kv, P kv.2) (entries v) → P v) → ∀ v, P v.
Proof.
  intros H. induction v as [members IH|items IH|literal]
    using json_members_ind; apply H; simpl.
  - done.
  - by apply Forall_indexed.
  - constructor.
Qed.

Lemma positions_unfold (v : json) :
  positions v =
  [] :: flat_map (λ kv, map (cons kv.1) (positions kv.2)) (entries v).
Proof.
  destruct v as [members|items|literal]; simpl; f_equal.
  - induction members as [|[k c] l IH]; simpl; [done|]. by rewrite IH.
  - generalize 0%nat as idx.
    induction items as [|c l IH]; intros idx; simpl; [done|].
    by rewrite IH.
Qed.

Lemma visits_unfold (v : json) (path : string) (depth : nat)
    (parentId : option string) (keyLabel : string) :
  visits v path depth parentId keyLabel =
  visit_of v path depth parentId keyLabel ::
  flat_map (λ kv, visits kv.2 (makeChildPath path kv.1) (S depth)
                    (Some (Js.or_else path keyLabel)) kv.1) (entries v).
Proof.
  destruct v as [members|items|literal]; simpl; f_equal.
  - induction members as [|[k c] l IH]; simpl; [done|]. by rewrite IH.
  - generalize 0%nat as idx.
    induction items as [|c l IH]; intros idx; simpl; [done|].
    by rewrite IH.
Qed.

Lemma traverse_unfold (v : json) (path : string) (depth : nat)
    (parentId : option string) (keyLabel : string) (st : flow) :
  traverse v path depth parentId keyLabel st =
  fold_left (λ st kv, traverse kv.2 (makeChildPath path kv.1) (S depth)
                        (Some (Js.or_else path keyLabel)) kv.1 st)
    (entries v)
    (apply_visit st (visit_of v path depth parentId keyLabel)).
Proof.
  destruct v as [members|items|literal]; simpl.
  - unfold apply_visit. simpl.
    match goal with |- _ = fold_left _ _ ?s0 => generalize s0 as st' end.
    induction members as [|[k c] l IH]; intros st'; simpl; [done|].
    by rewrite IH.
  - unfold apply_visit. simpl.
    match goal with |- _ = fold_left _ _ ?s0 => generalize s0 as st' end.
    generalize 0%nat as idx.
    induction items as [|c l IH]; intros idx st'; simpl; [done|].
    by rewrite IH.
  - done.
Qed.

(** [traverse] performs its [visits] one after the other. *)
Lemma traverse_visits (v : json) :
  ∀ path depth parentId keyLabel st,
    traverse v path depth parentId keyLabel st =
    fold_left apply_visit (visits v path depth parentId keyLabel) st.
Proof.
  induction v as [v IH] using json_entries_ind.
  intros path depth parentId keyLabel st.
  rewrite traverse_unfold, visits_unfold. simpl.
  generalize (apply_visit st (visit_of v path depth parentId keyLabel)).
  induction IH as [|[k c] l Hc Hl IHl]; intros st'; simpl; [done|].
  rewrite fold_left_app, IHl. f_equal. apply Hc.
Qed.

End Json.

(** ** Layout *)

Section Layout.

Lemma occurrences_snoc (d d' : nat) (ds : list nat) :
  occurrences d (ds ++ [d']) =
  (occurrences d ds + if decide (d' = d) then 1 else 0)%nat.
Proof.
  unfold occurrences. rewrite filter_app, length_app. f_equal.
  rewrite filter_cons, filter_nil. by destruct (decide (d' = d)).
Qed.

Lemma occurrences_pos (d : nat) (ds : list nat) :
  (0 < occurrences d ds)%nat ↔ d ∈ ds.
Proof.
  unfold occurrences. induction ds as [|x ds IH].
  - rewrite filter_nil. simpl. split; [lia|by intros ?%elem_of_nil].
  - rewrite filter_cons, elem_of_cons. destruct (decide (x = d)); simpl.
    + split; [auto|lia].
    + rewrite IH. split; [auto|]. by intros [->|].
Qed.

Lemma apply_visit_nodes (st : flow) (vis : visit) :
  nodes (apply_visit st vis) =
  nodes st ++
  [Node.mk (v_id vis)
     (Z.of_nat (default 0%nat (leafOrderAtDepth st !! v_depth vis)) * X_STEP)
     (Z.of_nat (v_depth vis) * Y_STEP)
     (v_label vis) (v_tooltip vis) (v_type vis)].
Proof.
  unfold apply_visit. destruct (v_parent vis) as [p|]; [|done].
  by destruct (Js.truthy p).
Qed.

Lemma apply_visit_counters (st : flow) (vis : visit) :
  leafOrderAtDepth (apply_visit st vis) =
  <[v_depth vis :=
      S (default 0%nat (leafOrderAtDepth st !! v_depth vis))]>
    (leafOrderAtDepth st).
Proof.
  unfold apply_visit. destruct (v_parent vis) as [p|]; [|done].
  by destruct (Js.truthy p).
Qed.

Lemma apply_visit_edges (st : flow) (vis : visit) :
  edges (apply_visit st vis) = edges st ++ option_list (edge_of vis).
Proof.
  unfold apply_visit, edge_of. destruct (v_parent vis) as [p|]; simpl.
  - destruct (Js.truthy p); simpl; [done|by rewrite app_nil_r].
  - by rewrite app_nil_r.
Qed.

Lemma fold_visits (vs : list visit) :
  let st := fold_left apply_visit vs empty_flow in
  length (nodes st) = length vs ∧
  (∀ i vis, vs !! i = Some vis →
     nodes st !! i = Some (node_at (v_depth <$> take i vs) vis)) ∧
  edges st = omap edge_of vs ∧
  (∀ d, leafOrderAtDepth st !! d =
        if decide (occurrences d (v_depth <$> vs) = 0%nat) then None
        else Some (occurrences d (v_depth <$> vs))).
Proof.
  induction vs as [|v vs IH] using rev_ind; simpl.
  - split_and!; [done|done|done|]. intros d. by rewrite lookup_empty.
  - destruct IH as (Hlen & Hnodes & Hedges & Hcount).
    rewrite fold_left_app. simpl.
    set (st := fold_left apply_visit vs empty_flow) in *.
    assert (default 0%nat (leafOrderAtDepth st !! v_depth v)
            = occurrences (v_depth v) (v_depth <$> vs)) as Horder.
    { rewrite Hcount. by case_decide. }
    split_and!.
    + rewrite apply_visit_nodes, !length_app. simpl. lia.
    + intros i vis Hi. rewrite apply_visit_nodes.
      destruct (decide (i < length vs)%nat) as [Hlt|Hge].
      * rewrite lookup_app_l in Hi by done.
        rewrite lookup_app_l by lia.
        rewrite take_app_le by lia. by apply Hnodes.
      * assert (i = length vs) as ->.
        { apply lookup_lt_Some in Hi. rewrite length_app in Hi.
          simpl in Hi. lia. }
        rewrite list_lookup_middle in Hi by done. injection Hi as <-.
        rewrite list_lookup_middle by done.
        rewrite take_app_length. unfold node_at. by rewrite Horder.
    + rewrite apply_visit_edges, Hedges, omap_app. simpl.
      by destruct (edge_of v).
    + intros d. rewrite apply_visit_counters, Horder, fmap_app. simpl.
      rewrite occurrences_snoc.
      destruct (decide (v_depth v = d)) as [->|Hne].
      * rewrite lookup_insert_eq. case_decide; [lia|]. f_equal. lia.
      * rewrite lookup_insert_ne by done. rewrite Hcount, Nat.add_0_r. done.
Qed.

Lemma positions_tail_nonempty (v : json) (ks : list string) :
  ks ∈ tail (positions v) → ks ≠ [].
Proof.
  rewrite positions_unfold. simpl.
  intros (kv & _ & Hks)%list_elem_of_In%in_flat_map.
  apply in_map_iff in Hks as (ks' & <- & _). done.
Qed.

Lemma visits_depths (v : json) :
  ∀ path depth parentId keyLabel,
    v_depth <$> visits v path depth parentId keyLabel =
    (λ ks, depth + length ks)%nat <$> positions v.
Proof.
  induction v as [v IH] using json_entries_ind.
  intros path depth parentId keyLabel.
  rewrite visits_unfold, positions_unfold. simpl.
  rewrite Nat.add_0_r. f_equal.
  generalize (Some (Js.or_else path keyLabel)) as par.
  induction IH as [|[k c] l Hc Hl IHl]; intros par; simpl; [done|].
  rewrite !fmap_app, IHl. f_equal. rewrite Hc.
  change (map (cons k) (positions c)) with (cons k <$> positions c).
  rewrite <- list_fmap_compose. apply list_fmap_ext.
  intros _ ks _. simpl. lia.
Qed.

Lemma or_else_truthy (p k : string) :
  Js.truthy p = true → Js.or_else p k = p.
Proof. intros H. unfold Js.or_else. by rewrite H. Qed.

Lemma makeChildPath_truthy (p k : string) :
  Js.truthy p = true → Js.truthy (makeChildPath p k) = true.
Proof.
  intros H. rewrite makeChildPath_segment by done. by apply truthy_app_l.
Qed.

Lemma visits_ids (v : json) :
  ∀ path depth parentId keyLabel,
    Js.truthy path = true →
    v_id <$> visits v path depth parentId keyLabel =
    (λ ks, fold_left makeChildPath ks path) <$> positions v.
Proof.
  induction v as [v IH] using json_entries_ind.
  intros path depth parentId keyLabel Hp.
  rewrite visits_unfold, positions_unfold. simpl.
  rewrite or_else_truthy by done. f_equal.
  generalize (S depth) as d.
  induction IH as [|[k c] l Hc Hl IHl]; intros d; simpl; [done|].
  rewrite !fmap_app, IHl. f_equal.
  rewrite Hc by (by apply makeChildPath_truthy).
  change (map (cons k) (positions c)) with (cons k <$> positions c).
  by rewrite <- list_fmap_compose.
Qed.

Lemma edge_of_child (v : json) (path : string) (d : nat) (p k : string) :
  Js.truthy p = true →
  edge_of (visit_of v path d (Some p) k) =
  Some (Edge.mk (p +:+ "->" +:+ Js.or_else path k) p (Js.or_else path k)).
Proof. intros Hp. unfold edge_of, visit_of. simpl. by rewrite Hp. Qed.

Lemma visits_edges (v : json) :
  ∀ path depth parentId keyLabel,
    Js.truthy path = true →
    omap edge_of (visits v path depth parentId keyLabel) =
    option_list (edge_of (visit_of v path depth parentId keyLabel)) ++
    (edge_at path <$> tail (positions v)).
Proof.
  induction v as [v IH] using json_entries_ind.
  intros path depth parentId keyLabel Hp.
  rewrite visits_unfold, positions_unfold.
  assert (∀ x l, omap edge_of (x :: l)
                 = option_list (edge_of x) ++ omap edge_of l) as Hcons
    by (intros x l; simpl; by destruct (edge_of x)).
  rewrite Hcons.
  f_equal. simpl tail.
  rewrite or_else_truthy by done.
  generalize (S depth) as d.
  induction IH as [|[k c] l Hc Hl IHl]; intros d; simpl; [done|].
  rewrite omap_app, fmap_app, IHl. f_equal.
  rewrite Hc by (by apply makeChildPath_truthy).
  simpl snd. rewrite edge_of_child by done.
  rewrite or_else_truthy by (by apply makeChildPath_truthy).
  rewrite (positions_unfold c). simpl. f_equal.
  change (map (cons k) ?l) with (cons k <$> l).
  rewrite <- list_fmap_compose. apply list_fmap_ext.
  intros _ ks Hks%list_elem_of_lookup_2.
  assert (ks ≠ []) as Hne.
  { apply (positions_tail_nonempty c). by rewrite positions_unfold. }
  unfold edge_at. simpl. by destruct ks.
Qed.

(** The state [buildFlowFromJSON] reaches before it centres the nodes. *)
Lemma build_state (v : json) :
  traverse v "root" 0 None "root" empty_flow =
  fold_left apply_visit (visits v "root" 0 None "root") empty_flow.
Proof. apply traverse_visits. Qed.

Lemma build_edges (v : json) :
  (buildFlowFromJSON v).2 = edge_at "root" <$> tail (positions v).
Proof.
  unfold buildFlowFromJSON. simpl. rewrite build_state.
  destruct (fold_visits (visits v "root" 0 None "root")) as (_ & _ & -> & _).
  by rewrite visits_edges.
Qed.

Lemma build_ids (v : json) :
  Node.id <$> (buildFlowFromJSON v).1 = compose_path <$> positions v.
Proof.
  unfold buildFlowFromJSON. simpl. rewrite build_state.
  destruct (fold_visits (visits v "root" 0 None "root"))
    as (Hlen & Hnodes & _ & _).
  transitivity (v_id <$> visits v "root" 0%nat None "root");
    [|by rewrite visits_ids].
  rewrite <- list_fmap_compose.
  apply list_eq_same_length with (length (visits v "root" 0%nat None "root")).
  - by rewrite length_fmap.
  - by rewrite length_fmap.
  - intros i x y Hi. rewrite !list_lookup_fmap.
    destruct (visits v "root" 0%nat None "root" !! i) as [vis|] eqn:E; [|done].
    rewrite (Hnodes i vis E). simpl. congruence.
Qed.

Lemma Math_max_elem (c : nat) (cs : list nat) : Math_max c cs ∈ c :: cs.
Proof.
  unfold Math_max. induction cs as [|x cs IH]; simpl; [by left|].
  destruct (Nat.max_spec x (foldr Nat.max c cs)) as [[_ ->]|[_ ->]].
  - apply elem_of_cons in IH as [->|IH]; [by left|by do 2 right].
  - right. by left.
Qed.

Lemma Math_max_upper (c : nat) (cs : list nat) (x : nat) :
  x ∈ c :: cs → (x ≤ Math_max c cs)%nat.
Proof.
  unfold Math_max. induction cs as [|y cs IH]; simpl.
  - by intros ->%list_elem_of_singleton.
  - intros [->|[->|H]%elem_of_cons]%elem_of_cons.
    + etrans; [apply IH; by left|]. lia.
    + lia.
    + etrans; [apply IH; by right|]. lia.
Qed.

Lemma max_list_elem (l : list nat) : l ≠ [] → max_list l ∈ l.
Proof.
  induction l as [|x l IH]; [done|]. intros _. simpl.
  destruct l as [|y l]; [rewrite Nat.max_0_r; by left|].
  destruct (Nat.max_spec x (max_list (y :: l))) as [[_ ->]|[_ ->]].
  - right. by apply IH.
  - by left.
Qed.

Lemma maxCols_of_spec (m : gmap nat nat) (ds : list nat) :
  ds ≠ [] →
  (∀ d, m !! d = if decide (occurrences d ds = 0%nat) then None
                 else Some (occurrences d ds)) →
  maxCols_of m = max_cols ds.
Proof.
  intros Hne Hm.
  assert (∀ c, c ∈ (map_to_list m).*2 ↔ ∃ d, d ∈ ds ∧ c = occurrences d ds)
    as Hvals.
  { intros c. rewrite list_elem_of_fmap. split.
    - intros ([d c'] & -> & Hin%elem_of_map_to_list). simpl.
      rewrite Hm in Hin. case_decide; [done|]. injection Hin as <-.
      exists d. split; [|done]. apply occurrences_pos. lia.
    - intros (d & Hd & ->). exists (d, occurrences d ds). split; [done|].
      apply elem_of_map_to_list. rewrite Hm.
      apply occurrences_pos in Hd. case_decide; [lia|done]. }
  unfold maxCols_of, max_cols.
  destruct ds as [|d0 ds']; [done|]. set (ds := d0 :: ds') in *.
  destruct ((map_to_list m).*2) as [|c cs] eqn:E.
  { exfalso. eapply (not_elem_of_nil (occurrences d0 ds)).
    apply Hvals. exists d0. split; [by left|done]. }
  apply Nat.le_antisymm.
  - pose proof (Math_max_elem c cs) as (d & Hd & ->)%Hvals.
    apply max_list_elem_of_le, list_elem_of_fmap. by exists d.
  - assert (max_list ((λ d, occurrences d ds) <$> ds)
            ∈ (λ d, occurrences d ds) <$> ds) as Hin
      by (by apply max_list_elem).
    apply list_elem_of_fmap in Hin as (d & Heq & Hd). rewrite Heq.
    apply Math_max_upper, Hvals. by exists d.
Qed.

Lemma build_depths (v : json) :
  v_depth <$> visits v "root" 0 None "root" = preorder_depths v.
Proof. rewrite visits_depths. done. Qed.

Lemma preorder_depths_nonempty (v : json) : preorder_depths v ≠ [].
Proof. unfold preorder_depths. by rewrite positions_unfold. Qed.

End Layout.

(** C4. Layout formula: the node visited [i]-th in depth-first pre-order,
    at the position [ks] of depth [d], is placed by the traversal at
    [x = c * 260] and [y = d * 110], where [c] is the number of nodes
    placed before it at depth [d] anywhere in the tree (one counter per
    depth, never reset per parent); [buildFlowFromJSON] then subtracts
    [centerX = (maxCols - 1) * 260 / 2] from its [x] and leaves its [y],
    where [maxCols] is the largest number of nodes on one depth level. *)
Theorem build_layout (value : json) (i : nat) (ks : list string) :
  let ds := preorder_depths value in
  let d := length ks in
  let c := occurrences d (take i ds) in
  let centerX := (Z.of_nat (max_cols ds) - 1) * 260 / 2 in
  positions value !! i = Some ks →
  maxCols_of (leafOrderAtDepth (traverse value "root" 0 None "root" empty_flow))
    = max_cols ds ∧
  ∃ placed,
    nodes (traverse value "root" 0 None "root" empty_flow) !! i = Some placed ∧
    Node.id placed = compose_path ks ∧
    Node.x placed = Z.of_nat c * 260 ∧
    Node.y placed = Z.of_nat d * 110 ∧
    (buildFlowFromJSON value).1 !! i = Some (shift_x centerX placed) ∧
    Node.x (shift_x centerX placed) = Z.of_nat c * 260 - centerX ∧
    Node.y (shift_x centerX placed) = Z.of_nat d * 110.
Proof.
  intros ds d c centerX Hks.
  assert (ds !! i = Some d) as Hd
    by (unfold ds, preorder_depths; by rewrite list_lookup_fmap, Hks).
  unfold buildFlowFromJSON. rewrite build_state.
  set (vs := visits value "root" 0 None "root").
  destruct (fold_visits vs) as (Hlen & Hnodes & _ & Hcount).
  pose proof (build_depths value) as Hds. fold vs in Hds. fold ds in Hds.
  pose proof (visits_ids value "root" 0%nat None "root" eq_refl) as Hids.
  fold vs in Hids.
  assert (∃ vis, vs !! i = Some vis ∧ v_depth vis = d ∧
                 v_id vis = compose_path ks) as (vis & Hvis & Hdep & Hid).
  { rewrite <- Hds, list_lookup_fmap in Hd.
    destruct (vs !! i) as [vis|] eqn:E; [|done]. injection Hd as Hd.
    exists vis. split_and!; [done..|].
    apply (f_equal (λ l, l !! i)) in Hids.
    rewrite !list_lookup_fmap, E, Hks in Hids. by injection Hids. }
  assert (occurrences (v_depth vis) (v_depth <$> take i vs) = c) as Hc.
  { rewrite Hdep, fmap_take, Hds. done. }
  assert (maxCols_of (leafOrderAtDepth (fold_left apply_visit vs empty_flow))
          = max_cols ds) as Hmax.
  { apply maxCols_of_spec; [apply preorder_depths_nonempty|by rewrite <- Hds]. }
  split; [exact Hmax|].
  exists (node_at (v_depth <$> take i vs) vis). rewrite Hmax.
  split_and!.
  - by apply Hnodes.
  - done.
  - simpl. by rewrite Hc.
  - simpl. by rewrite Hdep.
  - simpl. rewrite list_lookup_fmap, (Hnodes i vis Hvis). done.
  - simpl. by rewrite Hc.
  - simpl. by rewrite Hdep.
Qed.

Lemma build_layout_witness :
  let value :=
    JObject [("a", JArray [JPrimitive "1"; JPrimitive "2"]);
             ("b", JArray [JPrimitive "3"])] in
  positions value !! 5%nat = Some ["b"; "[0]"] ∧
  ∃ placed,
    nodes (traverse value "root" 0 None "root" empty_flow) !! 5%nat
      = Some placed ∧
    Node.id placed = "root.b[0]" ∧
    Node.x placed = 520 ∧ Node.y placed = 220 ∧
    Node.x (shift_x 260 placed) = 260.
Proof.
  intros value.
  assert (positions value !! 5%nat = Some ["b"; "[0]"]) as H by reflexivity.
  split; [exact H|].
  destruct (build_layout value 5 ["b"; "[0]"] H)
    as (_ & placed & H1 & H2 & H3 & H4 & _).
  exists placed. split_and!; [exact H1|exact H2|exact H3|exact H4|].
  simpl. rewrite H3. reflexivity.
Defined.


(** ** Array indices *)

Section Indices.

Lemma of_nat_inj (a b : nat) : Js.of_nat a = Js.of_nat b → a = b.
Proof.
  unfold Js.of_nat. intros H.
  apply (f_equal NilEmpty.uint_of_string) in H.
  rewrite !NilEmpty.usu in H. injection H as H.
  by apply Unsigned.to_uint_inj.
Qed.

Lemma string_of_uint_digits (u : Decimal.uint) :
  Js.all_digits (NilEmpty.string_of_uint u) = true.
Proof. induction u; simpl; auto. Qed.

Lemma to_uint_normal (n : nat) :
  Nat.to_uint n = Decimal.unorm (Nat.to_uint n).
Proof. by rewrite <- Unsigned.to_of, Unsigned.of_to. Qed.

Lemma of_nat_digits (n : nat) : Js.test_digits (Js.of_nat n) = true.
Proof.
  unfold Js.test_digits, Js.of_nat. rewrite string_of_uint_digits.
  rewrite andb_true_r.
  pose proof (DecimalFacts.unorm_nonnil (Nat.to_uint n)) as H.
  rewrite <- to_uint_normal in H. by destruct (Nat.to_uint n).
Qed.


Lemma index_key_token (i : nat) : index_token (index_key i).
Proof. exists (Js.of_nat i). split; [done|apply of_nat_digits]. Qed.

Lemma index_key_inj (i j : nat) : index_key i = index_key j → i = j.
Proof.
  unfold index_key. intros H. injection H as H.
  apply app_inv_tail_s in H. by apply of_nat_inj.
Qed.

Lemma indexed_keys (items : list json) (idx : nat) :
  (indexed idx items).*1 = index_key <$> seq idx (length items).
Proof.
  revert idx. induction items as [|x l IH]; intros idx; simpl; [done|].
  by rewrite IH.
Qed.

Lemma indexed_keys_NoDup (items : list json) (idx : nat) :
  NoDup (indexed idx items).*1.
Proof.
  rewrite indexed_keys. apply NoDup_fmap_2; [|apply NoDup_seq].
  intros i j. apply index_key_inj.
Qed.

End Indices.

(** ** Positions and canonical paths *)

Section Positions.

Lemma distinct_keys_entries (v : json) :
  distinct_keys v →
  NoDup (entries v).*1 ∧ Forall (λ kv, distinct_keys kv.2) (entries v).
Proof.
  destruct v as [members|items|literal]; simpl.
  - intros [Hnd Hall]. split; [done|].
    clear Hnd. induction members as [|kv l IH]; [constructor|].
    destruct Hall as [H1 H2]. constructor; auto.
  - intros Hall. split; [apply indexed_keys_NoDup|].
    generalize 0%nat as idx.
    induction items as [|x l IH]; intros idx; simpl; [constructor|].
    destruct Hall as [H1 H2]. constructor; auto.
  - intros _. split; constructor.
Qed.

Lemma keys_satisfy_entries (Q : string → Prop) (v : json) :
  keys_satisfy Q v →
  Forall (λ kv, (Q kv.1 ∨ index_token kv.1) ∧ keys_satisfy Q kv.2)
         (entries v).
Proof.
  destruct v as [members|items|literal]; simpl.
  - induction members as [|kv l IH]; [constructor|].
    intros [[H1 H2] H3]. constructor; [by split; [left|]|auto].
  - generalize 0%nat as idx.
    induction items as [|x l IH]; intros idx; simpl; [constructor|].
    intros [H1 H2]. constructor; [|auto]. split; [|done].
    right. apply index_key_token.
  - constructor.
Qed.

Lemma elem_of_positions (v : json) (ks : list string) :
  ks ∈ positions v ↔
  ks = [] ∨ ∃ k c ks', (k, c) ∈ entries v ∧ ks' ∈ positions c ∧ ks = k :: ks'.
Proof.
  rewrite positions_unfold, elem_of_cons, list_elem_of_In, in_flat_map.
  apply or_iff_compat_l. split.
  - intros ([k c] & Hin & (ks' & <- & Hks')%in_map_iff). simpl in *.
    exists k, c, ks'. by rewrite !list_elem_of_In.
  - intros (k & c & ks' & Hin & Hks' & ->). exists (k, c).
    rewrite <- list_elem_of_In. split; [done|]. apply in_map_iff.
    exists ks'. by rewrite <- list_elem_of_In.
Qed.

Lemma positions_keys (Q : string → Prop) (v : json) :
  keys_satisfy Q v →
  ∀ ks, ks ∈ positions v → Forall (λ k, Q k ∨ index_token k) ks.
Proof.
  induction v as [v IH] using json_entries_ind. intros Hv ks.
  rewrite elem_of_positions. intros [->|(k & c & ks' & Hin & Hks' & ->)];
    [constructor|].
  apply keys_satisfy_entries in Hv.
  rewrite Forall_forall in IH, Hv.
  destruct (Hv _ Hin) as [Hk Hc]. constructor; [done|].
  by apply (IH _ Hin).
Qed.

Lemma positions_NoDup (v : json) : distinct_keys v → NoDup (positions v).
Proof.
  induction v as [v IH] using json_entries_ind. intros Hv.
  apply distinct_keys_entries in Hv as [Hnd Hall].
  rewrite positions_unfold. constructor.
  - intros (kv & _ & (? & [=] & _)%in_map_iff)%list_elem_of_In%in_flat_map.
  - induction (entries v) as [|[k c] l IHl]; simpl; [constructor|].
    apply Forall_cons in IH as [IHc IHrest].
    apply Forall_cons in Hall as [Hc Hrest].
    simpl in Hnd. apply NoDup_cons in Hnd as [Hk Hnd].
    apply NoDup_app. split_and!.
    + apply (NoDup_fmap_2 (cons k)). by apply IHc.
    + intros ks (ks' & -> & _)%list_elem_of_fmap.
      intros ([k' c'] & Hin & (ks'' & [= -> _] & _)%in_map_iff
               )%list_elem_of_In%in_flat_map.
      apply Hk. apply list_elem_of_fmap. exists (k, c').
      by rewrite list_elem_of_In.
    + by apply IHl.
Qed.

Lemma segment_plain (k : string) : plain_key k → segment k = "." +:+ k.
Proof.
  unfold plain_key, segment. destruct k as [|c k]; [done|]. simpl.
  intros [Hc _]%andb_true_iff.
  apply negb_true_iff, orb_false_iff in Hc as [_ Hc].
  apply bool_decide_eq_false in Hc.
  by rewrite bool_decide_eq_false_2.
Qed.

Lemma digit_not_delim (c : ascii) :
  Js.is_digit c = true → is_delim c = false.
Proof.
  intros H. unfold is_delim. apply orb_false_iff.
  split; apply bool_decide_eq_false; intros ->; done.
Qed.

Lemma digits_no_delim (d : string) :
  Js.all_digits d = true → no_delim (d +:+ "]") = true.
Proof.
  induction d as [|c d IH]; simpl; [done|].
  intros [Hc Hd]%andb_true_iff. by rewrite digit_not_delim, IH.
Qed.

Lemma segment_split (k : string) :
  path_key k →
  ∃ c body, segment k = String c body ∧ is_delim c = true ∧
            no_delim body = true.
Proof.
  intros [Hk|(d & -> & Hd)].
  - rewrite segment_plain by done. by exists "."%char, k.
  - rewrite segment_index. exists "["%char, (d +:+ "]"). split_and!; [done..|].
    apply andb_true_iff in Hd as [_ Hd]. by apply digits_no_delim.
Qed.

Lemma segment_inj (k1 k2 : string) :
  path_key k1 → path_key k2 → segment k1 = segment k2 → k1 = k2.
Proof.
  intros [H1|(d1 & -> & _)] [H2|(d2 & -> & _)].
  - rewrite !segment_plain by done. simpl. by intros [= ->].
  - rewrite (segment_plain k1), segment_index by done. simpl. by intros [=].
  - rewrite (segment_plain k2), segment_index by done. simpl. by intros [=].
  - by rewrite !segment_index.
Qed.

Lemma segments_end (ks : list string) :
  Forall path_key ks → segment_end (segments ks).
Proof.
  intros [|k ks' (c & body & Hseg & Hc & _)%segment_split _]; simpl; [done|].
  by rewrite Hseg.
Qed.

Lemma split_at_delim (a b t1 t2 : string) :
  no_delim a = true → no_delim b = true →
  segment_end t1 → segment_end t2 →
  a +:+ t1 = b +:+ t2 → a = b ∧ t1 = t2.
Proof.
  revert b. induction a as [|x a IH]; intros [|y b] Ha Hb H1 H2 H;
    simpl in *.
  - done.
  - subst t1. simpl in H1. apply andb_true_iff in Hb as [Hy _].
    by rewrite H1 in Hy.
  - subst t2. simpl in H2. apply andb_true_iff in Ha as [Hx _].
    by rewrite H2 in Hx.
  - injection H as -> H. apply andb_true_iff in Ha as [_ Ha].
    apply andb_true_iff in Hb as [_ Hb].
    destruct (IH b Ha Hb H1 H2 H) as [-> ->]. done.
Qed.

Lemma segments_inj (ks1 ks2 : list string) :
  Forall path_key ks1 → Forall path_key ks2 →
  segments ks1 = segments ks2 → ks1 = ks2.
Proof.
  intros H1. revert ks2.
  induction H1 as [|k1 r1 Hk1 Hr1 IH]; intros ks2 H2 H.
  - destruct H2 as [|k2 r2 Hk2 _]; [done|]. simpl in H.
    apply segment_split in Hk2 as (c & body & Hseg & _). by rewrite Hseg in H.
  - destruct H2 as [|k2 r2 Hk2 Hr2]; simpl in H.
    { apply segment_split in Hk1 as (c & body & Hseg & _).
      by rewrite Hseg in H. }
    destruct (segment_split _ Hk1) as (c1 & b1 & Hs1 & _ & Hb1).
    destruct (segment_split _ Hk2) as (c2 & b2 & Hs2 & _ & Hb2).
    rewrite Hs1, Hs2 in H. simpl in H. injection H as -> H.
    apply split_at_delim in H as [-> H]; [|by auto using segments_end..].
    f_equal; [|by apply IH]. apply segment_inj; [done..|]. congruence.
Qed.

Lemma compose_path_inj (ks1 ks2 : list string) :
  Forall path_key ks1 → Forall path_key ks2 →
  compose_path ks1 = compose_path ks2 → ks1 = ks2.
Proof.
  intros H1 H2. rewrite !compose_path_segments.
  intros H%app_inv_head_s. by apply segments_inj.
Qed.

Lemma positions_head (v : json) : positions v !! 0%nat = Some [].
Proof. by rewrite positions_unfold. Qed.

End Positions.

(** ** The tree of edges *)

Section Tree.

Lemma segment_nonempty (k : string) : Js.truthy (segment k) = true.
Proof.
  unfold segment. destruct (Js.startsWith "[" k) eqn:E; [|done].
  by destruct k.
Qed.

Lemma compose_path_snoc (ks : list string) (k : string) :
  compose_path (ks ++ [k]) = compose_path ks +:+ segment k.
Proof.
  unfold compose_path. rewrite fold_left_app. simpl.
  apply makeChildPath_segment. rewrite fold_makeChildPath by done. done.
Qed.

Lemma compose_path_longer (ks : list string) :
  ks ≠ [] →
  (String.length (compose_path (removelast ks))
   < String.length (compose_path ks))%nat.
Proof.
  destruct ks as [|k ks _] using rev_ind; [done|]. intros _.
  rewrite removelast_last, compose_path_snoc, app_length_s.
  pose proof (segment_nonempty k). destruct (segment k); [done|]. simpl. lia.
Qed.

Lemma positions_removelast (v : json) (ks : list string) :
  ks ∈ positions v → removelast ks ∈ positions v.
Proof.
  revert ks. induction v as [v IH] using json_entries_ind. intros ks.
  rewrite !elem_of_positions.
  intros [->|(k & c & ks' & Hin & Hks' & ->)]; [by left|].
  destruct ks' as [|k' ks']; [by left|]. right.
  exists k, c, (removelast (k' :: ks')). split_and!; [done| |done].
  rewrite Forall_forall in IH. by apply (IH _ Hin).
Qed.

Lemma elem_of_build_edges (v : json) (e : Edge.t) :
  e ∈ (buildFlowFromJSON v).2 ↔
  ∃ ks, ks ∈ positions v ∧ ks ≠ [] ∧ e = edge_at "root" ks.
Proof.
  rewrite build_edges, list_elem_of_fmap. split.
  - intros (ks & -> & Hks). exists ks. split_and!; [|by eapply positions_tail_nonempty|done].
    rewrite positions_unfold. right. by rewrite positions_unfold in Hks.
  - intros (ks & Hks & Hne & ->). exists ks. split; [done|].
    rewrite positions_unfold in *. simpl.
    by apply elem_of_cons in Hks as [->|Hks].
Qed.

Lemma elem_of_build_ids (v : json) (n : Node.t) :
  n ∈ (buildFlowFromJSON v).1 →
  ∃ ks, ks ∈ positions v ∧ Node.id n = compose_path ks.
Proof.
  intros Hn.
  assert (Node.id n ∈ Node.id <$> (buildFlowFromJSON v).1) as Hid
    by (apply list_elem_of_fmap; by exists n).
  rewrite build_ids in Hid.
  apply list_elem_of_fmap in Hid as (ks & -> & Hks). by exists ks.
Qed.

Lemma build_edge_longer (v : json) (a b : string) :
  edge_rel (buildFlowFromJSON v).2 a b →
  (String.length a < String.length b)%nat.
Proof.
  intros (e & (ks & _ & Hne & ->)%elem_of_build_edges & <- & <-). simpl.
  by apply compose_path_longer.
Qed.

Lemma build_acyclic (v : json) (a : string) :
  ¬ tc (edge_rel (buildFlowFromJSON v).2) a a.
Proof.
  assert (∀ a b, tc (edge_rel (buildFlowFromJSON v).2) a b →
                 (String.length a < String.length b)%nat) as H.
  { intros x y Hxy. induction Hxy as [x y Hxy|x y z Hxy _ IH].
    - by eapply build_edge_longer.
    - apply build_edge_longer in Hxy. lia. }
  intros Ha%H. lia.
Qed.

Lemma build_reachable (v : json) (ks : list string) :
  ks ∈ positions v →
  rtc (edge_rel (buildFlowFromJSON v).2) "root" (compose_path ks).
Proof.
  induction ks as [|k ks IH] using rev_ind; intros Hks; [done|].
  pose proof (positions_removelast _ _ Hks) as Hinit.
  rewrite removelast_last in Hinit.
  eapply rtc_r; [by apply IH|].
  exists (edge_at "root" (ks ++ [k])). split_and!.
  - apply elem_of_build_edges. exists (ks ++ [k]).
    split_and!; [done| |done]. by destruct ks.
  - simpl. by rewrite removelast_last.
  - done.
Qed.

Lemma compose_path_root (ks : list string) :
  compose_path ks = "root" → ks = [].
Proof.
  destruct ks as [|k ks _] using rev_ind; [done|].
  rewrite compose_path_snoc. intros H%(f_equal String.length).
  rewrite app_length_s, compose_path_segments, app_length_s in H.
  pose proof (segment_nonempty k). destruct (segment k); [done|].
  simpl in H. lia.
Qed.

Lemma count_absent {A} `{EqDecision A} (l : list A) (x : A) :
  x ∉ l → length (filter (λ y, y = x) l) = 0%nat.
Proof.
  induction l as [|y l IH]; [done|]. rewrite filter_cons.
  intros [Hne Hx]%not_elem_of_cons. rewrite decide_False by done. auto.
Qed.

Lemma count_NoDup {A} `{EqDecision A} (l : list A) (x : A) :
  NoDup l → x ∈ l → length (filter (λ y, y = x) l) = 1%nat.
Proof.
  induction 1 as [|y l Hy Hl IH]; [by intros ?%elem_of_nil|].
  rewrite filter_cons. intros [->|Hx]%elem_of_cons.
  - rewrite decide_True by done. simpl. f_equal. by apply count_absent.
  - rewrite decide_False by (intros ->; done). by apply IH.
Qed.

Lemma incoming_length (es : list Edge.t) (id : string) :
  length (incoming es id) =
  length (filter (λ t, t = id) (Edge.target <$> es)).
Proof.
  unfold incoming. induction es as [|e es IH]; [done|].
  rewrite fmap_cons, !filter_cons.
  destruct (decide (Edge.target e = id)); simpl; by rewrite IH.
Qed.

Lemma build_targets (v : json) :
  Edge.target <$> (buildFlowFromJSON v).2 =
  compose_path <$> tail (positions v).
Proof.
  rewrite build_edges, <- list_fmap_compose. done.
Qed.

Lemma positions_compose_inj (v : json) (ks1 ks2 : list string) :
  keys_satisfy plain_key v →
  ks1 ∈ positions v → ks2 ∈ positions v →
  compose_path ks1 = compose_path ks2 → ks1 = ks2.
Proof.
  intros Hk H1 H2. apply compose_path_inj;
    by eapply (positions_keys plain_key).
Qed.

Lemma build_ids_NoDup (v : json) :
  distinct_keys v → keys_satisfy plain_key v →
  NoDup (Node.id <$> (buildFlowFromJSON v).1).
Proof.
  intros Hd Hk. rewrite build_ids. apply NoDup_fmap_2_strong.
  - intros ks1 ks2. by apply positions_compose_inj.
  - by apply positions_NoDup.
Qed.

Lemma build_root_id (v : json) :
  (Node.id <$> (buildFlowFromJSON v).1) !! 0%nat = Some "root".
Proof. by rewrite build_ids, list_lookup_fmap, positions_head. Qed.

End Tree.

(** C2, as stated, fails: the two members ["b"] of ["a"] and ["a.b"] of
    the root of [colliding_value] are given the same id. *)
Lemma build_ids_collide :
  distinct_keys colliding_value ∧
  ¬ NoDup (Node.id <$> (buildFlowFromJSON colliding_value).1).
Proof.
  split.
  - simpl. split_and!; try done;
      apply NoDup_ListNoDup; repeat constructor; simpl; intuition discriminate.
  - intros H.
    pose proof (proj1 (NoDup_alt _) H 2%nat 3%nat "root.a.b" eq_refl eq_refl).
    discriminate.
Qed.

(** C2, amended. Uniqueness of canonical paths for plain keys: when no
    object key of the input holds a dot or an opening bracket, the node
    ids [buildFlowFromJSON] produces are pairwise distinct; they are the
    paths composed from the tree positions, two positions have the same
    path if and only if they are the same position, and the root's id is
    ["root"]. *)
Theorem build_ids_distinct (value : json) :
  distinct_keys value → keys_satisfy plain_key value →
  let ids := Node.id <$> (buildFlowFromJSON value).1 in
  NoDup ids ∧
  ids = compose_path <$> positions value ∧
  (∀ ks1 ks2, ks1 ∈ positions value → ks2 ∈ positions value →
     (compose_path ks1 = compose_path ks2 ↔ ks1 = ks2)) ∧
  ids !! 0%nat = Some "root".
Proof.
  intros Hd Hk ids. unfold ids. split_and!.
  - by apply build_ids_NoDup.
  - apply build_ids.
  - intros ks1 ks2 H1 H2.
    split; [by apply (positions_compose_inj value)|by intros ->].
  - apply build_root_id.
Qed.

Lemma build_ids_distinct_witness :
  let value := JObject [("a", JArray [JPrimitive "1"; JPrimitive "2"])] in
  distinct_keys value ∧ keys_satisfy plain_key value ∧
  NoDup (Node.id <$> (buildFlowFromJSON value).1).
Proof.
  intros value.
  assert (distinct_keys value) as Hd.
  { simpl. split_and!; try done.
    apply NoDup_ListNoDup; repeat constructor; simpl; intuition discriminate. }
  assert (keys_satisfy plain_key value) as Hk by (simpl; done).
  split; [exact Hd|]. split; [exact Hk|].
  exact (proj1 (build_ids_distinct value Hd Hk)).
Defined.

(** C6, as stated, fails: in the graph of [colliding_value] the node with
    id ["root.a.b"] has two incoming edges, one from ["root.a"] and one
    from ["root"]. *)
Lemma build_two_incoming :
  distinct_keys colliding_value ∧
  ∃ n, n ∈ (buildFlowFromJSON colliding_value).1 ∧
       Node.id n ≠ "root" ∧
       Edge.source <$> incoming (buildFlowFromJSON colliding_value).2 (Node.id n)
         = ["root.a"; "root"].
Proof.
  split.
  - simpl. split_and!; try done;
      apply NoDup_ListNoDup; repeat constructor; simpl; intuition discriminate.
  - eexists. split_and!.
    + apply list_elem_of_lookup. by exists 2%nat.
    + done.
    + by vm_compute.
Qed.

(** C6, amended. Tree shape for plain keys: when no object key of the
    input holds a dot or an opening bracket, the edges
    [buildFlowFromJSON] produces form one tree rooted at the node with id
    ["root"]: no edge leads into the root, every other node has exactly
    one incoming edge, every edge joins two nodes of the graph, every node
    is reached from the root, and there is no cycle. *)
Theorem build_tree_shape (value : json) :
  distinct_keys value → keys_satisfy plain_key value →
  let ns := (buildFlowFromJSON value).1 in
  let es := (buildFlowFromJSON value).2 in
  (Node.id <$> ns) !! 0%nat = Some "root" ∧
  (∀ e, e ∈ es → Edge.target e ≠ "root") ∧
  (∀ n, n ∈ ns → Node.id n ≠ "root" → length (incoming es (Node.id n)) = 1%nat) ∧
  (∀ e, e ∈ es → Edge.source e ∈ Node.id <$> ns ∧ Edge.target e ∈ Node.id <$> ns) ∧
  (∀ n, n ∈ ns → rtc (edge_rel es) "root" (Node.id n)) ∧
  (∀ a, ¬ tc (edge_rel es) a a).
Proof.
  intros Hd Hk ns es.
  pose proof (build_ids_NoDup value Hd Hk) as Hnd.
  unfold ns, es. split_and!.
  - apply build_root_id.
  - intros e (ks & _ & Hne & ->)%elem_of_build_edges. simpl.
    by intros ->%compose_path_root.
  - intros n (ks & Hks & Hid)%elem_of_build_ids Hn.
    rewrite incoming_length, build_targets. apply count_NoDup.
    + rewrite build_ids, positions_unfold in Hnd. simpl in Hnd.
      apply NoDup_cons in Hnd as [_ Hnd]. by rewrite positions_unfold.
    + rewrite Hid. apply list_elem_of_fmap. exists ks. split; [done|].
      rewrite positions_unfold in *. simpl.
      apply elem_of_cons in Hks as [->|Hks]; [|done]. by rewrite Hid in Hn.
  - intros e (ks & Hks & Hne & ->)%elem_of_build_edges.
    rewrite build_ids. simpl. split; apply list_elem_of_fmap.
    + exists (removelast ks). split; [done|]. by apply positions_removelast.
    + by exists ks.
  - intros n (ks & Hks & ->)%elem_of_build_ids. by apply build_reachable.
  - apply build_acyclic.
Qed.

Lemma build_tree_shape_witness :
  let value := JObject [("a", JArray [JPrimitive "1"; JPrimitive "2"])] in
  distinct_keys value ∧ keys_satisfy plain_key value ∧
  (∀ n, n ∈ (buildFlowFromJSON value).1 → Node.id n ≠ "root" →
        length (incoming (buildFlowFromJSON value).2 (Node.id n)) = 1%nat).
Proof.
  intros value.
  assert (distinct_keys value) as Hd.
  { simpl. split_and!; try done.
    apply NoDup_ListNoDup; repeat constructor; simpl; intuition discriminate. }
  assert (keys_satisfy plain_key value) as Hk by (simpl; done).
  split; [exact Hd|]. split; [exact Hk|].
  exact (proj1 (proj2 (proj2 (build_tree_shape value Hd Hk)))).
Defined.

(** ** The resolver *)

Section Resolver.

Lemma findNodeByPath_Some (nodes : list Node.t) (q : string) (n : Node.t) :
  findNodeByPath nodes q = Some n →
  ∃ tokens, parseJsonPath q = Some tokens ∧
            Node.id n = compose_path tokens ∧ n ∈ nodes.
Proof.
  unfold findNodeByPath. destruct (parseJsonPath q) as [ts|]; [|done].
  intros [? ?]%find_by_id_Some. by exists ts.
Qed.

Lemma resolve_Found (nodes : list Node.t) (q : string) (n : Node.t) :
  resolve nodes q = Found n →
  findNodeByPath nodes (normalized (Js.trim q)) = Some n.
Proof.
  unfold resolve. destruct (negb _); [done|].
  destruct (findNodeByPath _ _); [|done]. by intros [= ->].
Qed.

End Resolver.

(** C5. Tokenizer failure and its conflation with no-match:
    [parseJsonPath] returns [null] exactly when a bracket segment of the
    input is unterminated or has a trimmed content that is not a run of
    one or more digits; whenever it does, [findNodeByPath] returns [null]
    and [doSearch] reports no match; the query ["items[a]"] is such a
    case. *)
Theorem parseJsonPath_fails_iff_malformed (input : string) :
  (parseJsonPath input = None ↔ Exists malformed (bracket_segments input)) ∧
  (∀ nodes, parseJsonPath input = None → findNodeByPath nodes input = None) ∧
  (∀ nodes query,
     Js.trim query ≠ "" → input = normalized (Js.trim query) →
     parseJsonPath input = None → resolve nodes query = NotFound) ∧
  (∀ st, App.query st = "items[a]" →
     parseJsonPath (normalized (Js.trim (App.query st))) = None ∧
     resolve (App.nodes st) (App.query st) = NotFound ∧
     App.matchMsg (doSearch st) = "No match found" ∧
     App.highlightId (doSearch st) = "").
Proof.
  split_and!.
  - apply parseJsonPath_malformed.
  - intros nodes H. unfold findNodeByPath. by rewrite H.
  - intros nodes query Hq -> H. unfold resolve, findNodeByPath.
    apply truthy_true in Hq. by rewrite Hq, H.
  - intros st Hq. unfold doSearch. simpl. rewrite Hq.
    by vm_compute.
Qed.

Lemma parseJsonPath_fails_iff_malformed_witness :
  Exists malformed (bracket_segments "items[a]") ∧
  parseJsonPath "items[a]" = None ∧
  findNodeByPath [] "items[a]" = None ∧
  parseJsonPath "a[1" = None.
Proof.
  assert (Exists malformed (bracket_segments "items[a]")) as H
    by (apply Exists_cons_hd; reflexivity).
  pose proof (proj1 (parseJsonPath_fails_iff_malformed "items[a]")) as [_ H1].
  split_and!; [exact H|exact (H1 H)| |].
  - exact (proj1 (proj2 (parseJsonPath_fails_iff_malformed "items[a]"))
             [] (H1 H)).
  - apply (proj1 (parseJsonPath_fails_iff_malformed "a[1")).
    apply Exists_cons_hd. exact I.
Defined.

(** ** From a node id back to the node *)

Section Roundtrip.

Lemma scan_plain (k s buf : string) (tokens : list string) :
  no_delim k = true →
  scan (k +:+ s) buf tokens = scan s (buf +:+ k) tokens.
Proof.
  revert buf. induction k as [|c k IH]; intros buf Hk.
  - simpl. by rewrite app_empty_r.
  - simpl in Hk. apply andb_true_iff in Hk as [Hc Hk].
    apply negb_true_iff in Hc.
    change (String c k +:+ s) with (String c (k +:+ s)).
    rewrite scan_other by done. rewrite IH by done. by rewrite app_snoc.
Qed.

Lemma flush_empty (tokens : list string) : flush "" tokens = tokens.
Proof. done. Qed.

Lemma scan_eat_dot (s : string) (tokens : list string) :
  scan (eat_dot s) "" tokens = scan s "" tokens.
Proof.
  destruct s as [|c s]; simpl eat_dot; [done|].
  destruct (decide (c = "."%char)) as [->|]; [|done].
  by rewrite scan_dot, flush_empty.
Qed.

Lemma digit_not_white (c : ascii) :
  Js.is_digit c = true → Js.is_white_space c = false.
Proof. by destruct c as [[] [] [] [] [] [] [] []]. Qed.

Lemma digit_not_close (c : ascii) : Js.is_digit c = true → c ≠ "]"%char.
Proof. by intros H ->. Qed.

Lemma digits_no_close (d : string) :
  Js.all_digits d = true → Js.includes "]"%char d = false.
Proof.
  induction d as [|c d IH]; simpl; [done|].
  intros [Hc Hd]%andb_true_iff. apply digit_not_close in Hc.
  destruct (decide (c = "]"%char)); [done|]. by apply IH.
Qed.

Lemma digits_last (d : string) (c : ascii) :
  Js.all_digits d = true → last_char d = Some c → Js.is_digit c = true.
Proof.
  induction d as [|x d IH]; [done|]. simpl.
  intros [Hx Hd]%andb_true_iff. destruct d as [|y d].
  - by intros [= <-].
  - by apply IH.
Qed.

Lemma trim_digits (d : string) : Js.all_digits d = true → Js.trim d = d.
Proof.
  intros Hd. apply trim_id.
  - intros c r ->. simpl in Hd. apply andb_true_iff in Hd as [Hc _].
    by apply digit_not_white.
  - intros c Hc. eapply digit_not_white, digits_last; done.
Qed.

Lemma scan_index (d s buf : string) (tokens : list string) :
  Js.test_digits d = true →
  scan ("[" +:+ d +:+ "]" +:+ s) buf tokens =
  scan s "" (flush buf tokens ++ ["[" +:+ d +:+ "]"]).
Proof.
  intros [Hne Hd]%andb_true_iff.
  change ("[" +:+ d +:+ "]" +:+ s)
    with (String "["%char (d +:+ String "]"%char s)).
  rewrite scan_bracket, read_bracket_app by (by apply digits_no_close).
  change ("" +:+ d) with d. rewrite trim_digits by done.
  unfold Js.test_digits. rewrite Hne, Hd. simpl negb. cbv iota.
  apply scan_eat_dot.
Qed.

Lemma scan_segments (ks : list string) :
  Forall wf_token ks →
  ∀ buf tokens,
    scan (segments ks) buf tokens = Some (flush buf tokens ++ ks).
Proof.
  induction 1 as [|k ks Hk Hks IH]; intros buf tokens; simpl.
  - by rewrite app_nil_r.
  - destruct Hk as [Hk|(d & -> & Hd)].
    + rewrite segment_key by done. destruct Hk as [Hne Hk].
      rewrite app_assoc_s.
      change ("." +:+ k +:+ segments ks)
        with (String "."%char (k +:+ segments ks)).
      rewrite scan_dot, scan_plain, IH by done. change ("" +:+ k) with k.
      unfold flush at 1. apply truthy_true in Hne. rewrite Hne.
      by rewrite <- app_assoc.
    + rewrite segment_index, !app_assoc_s.
      rewrite scan_index, IH by done. rewrite flush_empty.
      by rewrite <- app_assoc.
Qed.

Lemma filter_truthy_wf (ks : list string) :
  Forall wf_token ks → filter (λ t, Is_true (Js.truthy t)) ks = ks.
Proof.
  induction 1 as [|k ks Hk Hks IH]; [done|].
  rewrite filter_cons, IH. rewrite decide_True; [done|].
  apply Is_true_true. destruct Hk as [[Hne _]|(d & -> & _)];
    [by apply truthy_true|done].
Qed.

Lemma clean_key_token (k : string) : clean_key k → key_token k.
Proof. intros (Hk & Hfirst & _). split; [|done]. by intros ->. Qed.

Lemma last_char_append (a b : string) :
  b ≠ "" → last_char (a +:+ b) = last_char b.
Proof. destruct b as [|c b]; [done|]. intros _. apply last_char_app. Qed.

Lemma segments_last (ks : list string) (c : ascii) :
  Forall (λ k, clean_key k ∨ index_token k) ks →
  last_char (segments ks) = Some c → Js.is_white_space c = false.
Proof.
  induction 1 as [|k ks Hk Hks IH]; [done|]. simpl.
  destruct ks as [|k' ks].
  - simpl. rewrite app_empty_r. destruct Hk as [Hk|(d & -> & _)].
    + rewrite segment_key by (by apply clean_key_token).
      destruct Hk as (_ & Hfirst & Hlast).
      rewrite last_char_append by (by intros ->).
      intros Hc. by rewrite Hc in Hlast.
    + rewrite segment_index, <- app_assoc_s.
      rewrite last_char_snoc. by intros [= <-].
  - rewrite last_char_append; [exact IH|].
    simpl. intros [H _]%app_eq_empty.
    pose proof (segment_nonempty k') as Hs. by rewrite H in Hs.
Qed.

Lemma substring_all (s : string) : String.substring 0 (String.length s) s = s.
Proof. induction s as [|c s IH]; simpl; [done|]. by rewrite IH. Qed.

Lemma copied_path_compose (ks : list string) :
  copied_path (compose_path ks) = eat_dot (segments ks).
Proof.
  rewrite compose_path_segments. unfold copied_path.
  rewrite startsWith_app. f_equal. simpl.
  rewrite Nat.sub_0_r. apply substring_all.
Qed.

(** The text copied from the node at a non-root position of clean keys:
    it is not changed by [trim], does not start with a root marker, and
    scans back to the keys of the position. *)
Lemma copied_text (k : string) (ks : list string) :
  Forall (λ k, clean_key k ∨ index_token k) (k :: ks) →
  let q := eat_dot (segments (k :: ks)) in
  (∃ c r, q = String c r ∧ Js.is_white_space c = false ∧
          c ≠ "$"%char ∧ c ≠ "."%char) ∧
  (∀ c, last_char q = Some c → Js.is_white_space c = false) ∧
  scan q "" [] = Some (k :: ks).
Proof.
  intros Hall q.
  assert (Forall wf_token (k :: ks)) as Hwf.
  { eapply Forall_impl; [exact Hall|]. intros x [Hx|Hx]; [left|by right].
    by apply clean_key_token. }
  split_and!.
  - unfold q. simpl. apply Forall_cons in Hall as [[Hk|(d & -> & _)] _].
    + rewrite segment_key by (by apply clean_key_token). simpl.
      destruct Hk as (Hnd & Hfirst & _). destruct k as [|c r]; [done|].
      destruct Hfirst as [Hw Hdollar]. exists c, (r +:+ segments ks).
      split_and!; [done..|]. simpl in Hnd.
      apply andb_true_iff in Hnd as [Hc _]. intros ->. done.
    + rewrite segment_index. by eexists _, _.
  - intros c Hc. apply (segments_last (k :: ks)); [done|].
    unfold q in Hc. simpl in *.
    destruct (segment_split k) as (x & body & Hseg & _).
    { apply Forall_cons in Hwf as [[[_ Hk]|Hk] _]; [by left|by right]. }
    rewrite Hseg in *. simpl in *.
    destruct (decide (x = "."%char)); [|done].
    destruct (body +:+ segments ks) eqn:E; [done|]. done.
  - unfold q. by rewrite scan_eat_dot, scan_segments.
Qed.

Lemma parse_copied (q s : string) (ks : list string) :
  (∃ c r, q = String c r ∧ Js.is_white_space c = false ∧
          c ≠ "$"%char ∧ c ≠ "."%char) →
  (∀ c, last_char q = Some c → Js.is_white_space c = false) →
  scan q "" [] = Some ks →
  s = q ∨ s = "$." +:+ q →
  parseJsonPath s = Some (filter (λ t, Is_true (Js.truthy t)) ks).
Proof.
  intros (c & r & -> & Hw & Hdollar & Hdot) Hlast Hscan Hs.
  rewrite parseJsonPath_unfold.
  assert (Js.truthy s = true) as -> by (by destruct Hs as [->| ->]).
  simpl negb. cbv iota.
  assert (strip_root (Js.trim s) = String c r) as ->; [|by rewrite Hscan].
  destruct Hs as [->| ->].
  - rewrite trim_id; [|by intros ?? [= <- _]|done].
    unfold strip_root. rewrite startsWith_char.
    rewrite bool_decide_eq_false_2 by done. rewrite startsWith_char.
    by rewrite bool_decide_eq_false_2.
  - rewrite trim_id; [done|by intros ?? [= <- _]|].
    intros x.
    change (last_char ("$." +:+ String c r))
      with (last_char (String c r)). apply Hlast.
Qed.

Lemma normalized_cases (q : string) :
  normalized q = q ∨ normalized q = "$." +:+ q.
Proof. unfold normalized. destruct (_ || _); auto. Qed.

Lemma find_by_id_exists (path : string) (nodes : list Node.t) (n : Node.t) :
  n ∈ nodes → Node.id n = path →
  ∃ n', find_by_id path nodes = Some n' ∧ Node.id n' = path.
Proof.
  intros Hn Hid. unfold find_by_id.
  destruct (List.find _ nodes) as [n'|] eqn:E.
  - exists n'. split; [done|].
    apply find_some in E as [_ E]. by apply bool_decide_eq_true in E.
  - exfalso. apply list_elem_of_In in Hn.
    pose proof (find_none _ _ E n Hn) as H. simpl in H.
    by apply bool_decide_eq_false in H.
Qed.

End Roundtrip.

(** C1, as stated, fails: the member ["$ref"] of [{"$ref": 1}] gets the id
    ["root.$ref"]; the text copied from it is ["$ref"], whose leading
    ["$"] the tokenizer strips as a root marker, so the search composes
    ["root.ref"] and finds nothing.  For the root node the copied text is
    empty and the search looks nothing up. *)
Lemma roundtrip_fails :
  let nodes := (buildFlowFromJSON (JObject [("$ref", JPrimitive "1")])).1 in
  (∃ n, n ∈ nodes ∧ Node.id n = "root.$ref" ∧
        copied_path (Node.id n) = "$ref" ∧
        resolve nodes (copied_path (Node.id n)) = NotFound) ∧
  (∃ n, n ∈ nodes ∧ Node.id n = "root" ∧
        resolve nodes (copied_path (Node.id n)) = NoLookup).
Proof.
  split.
  - eexists. split_and!; [apply list_elem_of_lookup; by exists 1%nat|..];
      by vm_compute.
  - eexists. split_and!; [apply list_elem_of_lookup; by exists 0%nat|..];
      by vm_compute.
Qed.

(** C1, amended. Round trip for clean keys: when every object key of the
    input is non-empty, holds no dot and no opening bracket, does not
    start with ["$"] and has no white space at either end, then for every
    node of [buildFlowFromJSON] other than the root, the text
    [onNodeClick] copies from its id, given to the resolver (trimmed,
    normalized, tokenized and composed from ["root"]) over the same
    nodes, is found and resolves to a node with the same id. *)
Theorem roundtrip_clean_keys (value : json) (n : Node.t) :
  keys_satisfy clean_key value →
  n ∈ (buildFlowFromJSON value).1 →
  Node.id n ≠ "root" →
  ∃ n', resolve (buildFlowFromJSON value).1 (copied_path (Node.id n))
          = Found n' ∧
        Node.id n' = Node.id n.
Proof.
  intros Hk Hn Hroot.
  destruct (elem_of_build_ids _ _ Hn) as (ks & Hks & Hid).
  pose proof (positions_keys clean_key value Hk ks Hks) as Hall.
  destruct ks as [|k ks]; [done|].
  destruct (copied_text k ks Hall) as (Hfirst & Hlast & Hscan).
  assert (Forall wf_token (k :: ks)) as Hwf.
  { eapply Forall_impl; [exact Hall|]. intros x [Hx|Hx]; [left|by right].
    by apply clean_key_token. }
  rewrite Hid, copied_path_compose.
  set (q := eat_dot (segments (k :: ks))) in *.
  assert (Js.trim q = q) as Htrim.
  { destruct Hfirst as (c & r & Hq & Hw & _). apply trim_id; [|done].
    intros c' r' Hq'. rewrite Hq in Hq'. by injection Hq' as <- _. }
  assert (parseJsonPath (normalized q) = Some (k :: ks)) as Hparse.
  { rewrite (parse_copied q (normalized q) (k :: ks));
      [|done|done|done|apply normalized_cases].
    by rewrite filter_truthy_wf. }
  destruct (find_by_id_exists (compose_path (k :: ks))
              (buildFlowFromJSON value).1 n Hn Hid) as (n' & Hfind & Hid').
  exists n'. split; [|done].
  unfold resolve, findNodeByPath. rewrite Htrim, Hparse, Hfind.
  destruct Hfirst as (c & r & -> & _). done.
Qed.

Lemma roundtrip_clean_keys_witness :
  let value := JObject [("items", JArray [JObject [("id", JPrimitive "1")]])] in
  let n := Node.mk "root.items[0].id" 0 330 "id: 1"
             ("root.items[0].id" +:+ newline +:+ "PRIMITIVE") primitive in
  keys_satisfy clean_key value ∧
  n ∈ (buildFlowFromJSON value).1 ∧
  Node.id n ≠ "root" ∧
  ∃ n', resolve (buildFlowFromJSON value).1 (copied_path (Node.id n))
          = Found n' ∧
        Node.id n' = Node.id n.
Proof.
  intros value n.
  assert (keys_satisfy clean_key value) as Hk.
  { simpl. unfold clean_key. simpl. repeat split; discriminate. }
  assert (n ∈ (buildFlowFromJSON value).1) as Hn.
  { apply list_elem_of_lookup. exists 3%nat. reflexivity. }
  assert (Node.id n ≠ "root") as Hr by discriminate.
  split; [exact Hk|]. split; [exact Hn|]. split; [exact Hr|].
  exact (roundtrip_clean_keys value n Hk Hn Hr).
Defined.

(** ** Bracket indices *)

Section BracketIndex.













End BracketIndex.

(** ** Leading zeros in an index *)

Section LeadingZero.

Lemma no_delim_no_bracket (k : string) :
  no_delim k = true → Js.includes "["%char k = false.
Proof.
  induction k as [|c k IH]; simpl; [done|].
  intros [Hc Hk]%andb_true_iff.
  apply negb_true_iff, orb_false_iff in Hc as [_ Hc].
  apply bool_decide_eq_false in Hc.
  destruct (decide (c = "["%char)); [done|]. by apply IH.
Qed.

Lemma wf_token_bracket_free (t : string) :
  wf_token t → bracket_free_key t ∨ index_token t.
Proof.
  intros [[_ Hk]|Hi]; [left|by right]. by apply no_delim_no_bracket.
Qed.








End LeadingZero.




(** C3, as stated, fails on one point: the query ["items[0].id"] holds a
    bracket and a dot, so [doSearch] leaves it as it is; it is not
    normalized to ["$.items[0].id"]. *)
Lemma scenario_B_not_prefixed :
  ¬ (normalized (Js.trim "items[0].id") = "$.items[0].id" ∧
     parseJsonPath (normalized (Js.trim "items[0].id"))
       = Some ["items"; "[0]"; "id"] ∧
     ∃ n, resolve (buildFlowFromJSON scenario_B_value).1 "items[0].id"
            = Found n ∧ Node.id n = "root.items[0].id").
Proof. intros [H _]. vm_compute in H. discriminate. Qed.

(** C3, amended. Scenario B: against the graph built from
    [{"items": [{"id": 1}]}], the query ["items[0].id"] is left unchanged
    by the normalization, tokenizes to ["items"], ["[0]"], ["id"] (the
    same tokens as ["$.items[0].id"]), composes ["root.items[0].id"] and
    resolves to the node with that id. *)
Theorem scenario_B :
  let nodes := (buildFlowFromJSON scenario_B_value).1 in
  normalized (Js.trim "items[0].id") = "items[0].id" ∧
  parseJsonPath (normalized (Js.trim "items[0].id"))
    = Some ["items"; "[0]"; "id"] ∧
  parseJsonPath "$.items[0].id" = Some ["items"; "[0]"; "id"] ∧
  compose_path ["items"; "[0]"; "id"] = "root.items[0].id" ∧
  ∃ n, n ∈ nodes ∧ resolve nodes "items[0].id" = Found n ∧
       Node.id n = "root.items[0].id".
Proof.
  split_and!; try (by vm_compute).
  eexists. split_and!; [apply list_elem_of_lookup; by exists 3%nat|..];
    by vm_compute.
Qed.

(** C7. Atomicity on invalid input: when [JSON.parse] throws on the raw
    text, [visualize] does not run the builder and leaves the JSON value,
    the nodes and the edges (and the query and the highlight) as they
    were; it only sets the error message. *)
Theorem visualize_invalid_json (JSON_parse : string → option json)
    (st : App.t) :
  JSON_parse (App.raw st) = None →
  let st' := visualize JSON_parse st in
  App.builds st' = App.builds st ∧
  App.json st' = App.json st ∧
  App.nodes st' = App.nodes st ∧
  App.edges st' = App.edges st ∧
  App.raw st' = App.raw st ∧
  App.query st' = App.query st ∧
  App.highlightId st' = App.highlightId st ∧
  App.matchMsg st' = App.matchMsg st ∧
  App.error st' = invalid_json_message.
Proof.
  intros H st'. unfold st', visualize. simpl. by rewrite H.
Qed.

Lemma visualize_invalid_json_witness :
  let parse := λ raw : string,
    if decide (raw = "{}") then Some (JObject []) else None in
  let st := App.mk "{oops" "" (JObject []) (buildFlowFromJSON (JObject [])).1
              (buildFlowFromJSON (JObject [])).2 "" "" "" 1 in
  parse (App.raw st) = None ∧
  App.nodes (visualize parse st) = App.nodes st ∧
  App.builds (visualize parse st) = 1%nat ∧
  App.error (visualize parse st) = invalid_json_message.
Proof.
  intros parse st.
  assert (parse (App.raw st) = None) as H by reflexivity.
  split; [exact H|].
  destruct (visualize_invalid_json parse st H)
    as (Hb & _ & Hn & _ & _ & _ & _ & _ & He).
  split; [exact Hn|]. split; [exact Hb|exact He].
Defined.

(** C10. No empty tokens: whenever [parseJsonPath] succeeds, every token it
    returns is a non-empty string, so the path composed from the tokens has
    no empty key segment.  The builder gives the member with the empty key
    the id of its parent followed by a dot (["root."] in the graph of
    [{"": 1}]); no query makes the resolver return a node whose id ends in
    a dot. *)
Theorem parseJsonPath_no_empty_token (input : string) :
  (∀ tokens, parseJsonPath input = Some tokens →
     Forall (λ t, t ≠ "") tokens ∧
     has_empty_key (compose_path tokens) = false) ∧
  (∀ p, Js.truthy p = true → makeChildPath p "" = p +:+ ".") ∧
  Node.id <$> (buildFlowFromJSON (JObject [("", JPrimitive "1")])).1
    = ["root"; "root."] ∧
  (∀ nodes n, resolve nodes input = Found n →
     last_char (Node.id n) ≠ Some "."%char).
Proof.
  split_and!.
  - intros tokens H. pose proof (parseJsonPath_wf _ _ H) as Hwf. split.
    + eapply Forall_impl; [exact Hwf|]. intros t [[Hne _]|(d & -> & _)]; done.
    + by apply compose_path_no_empty_key.
  - intros p Hp. by rewrite makeChildPath_segment.
  - by vm_compute.
  - intros nodes n (ts & Hp & -> & _)%resolve_Found%findNodeByPath_Some.
    apply has_empty_key_last, compose_path_no_empty_key.
    by eapply parseJsonPath_wf.
Qed.

Lemma parseJsonPath_no_empty_token_witness :
  parseJsonPath "a..b." = Some ["a"; "b"] ∧
  Forall (λ t, t ≠ "") ["a"; "b"] ∧
  has_empty_key (compose_path ["a"; "b"]) = false.
Proof.
  assert (parseJsonPath "a..b." = Some ["a"; "b"]) as H by (by vm_compute).
  split; [exact H|].
  exact (proj1 (parseJsonPath_no_empty_token "a..b.") ["a"; "b"] H).
Defined.

(** ** The scenarios of the specification *)

(** Scenario A: [{"a": 1}]. *)
Example scenario_A :
  let g := buildFlowFromJSON (JObject [("a", JPrimitive "1")]) in
  (λ n, (Node.id n, Node.type n, Node.label n)) <$> g.1
    = [("root", object, "root { }"); ("root.a", primitive, "a: 1")] ∧
  g.2 = [Edge.mk "root->root.a" "root" "root.a"].
Proof. by vm_compute. Qed.

(** Scenario D: the empty array. *)
Example scenario_D :
  let g := buildFlowFromJSON (JArray []) in
  (λ n, (Node.id n, Node.type n, Node.label n)) <$> g.1
    = [("root", array, "root [ ]")] ∧
  g.2 = [].
Proof. by vm_compute. Qed.

(** Scenario E: [null]. *)
Example scenario_E :
  (λ n, (Node.id n, Node.type n, Node.label n))
    <$> (buildFlowFromJSON (JPrimitive "null")).1
  = [("root", primitive, "root: null")].
Proof. by vm_compute. Qed.

(** Scenario F: the empty query looks nothing up and leaves no message. *)
Example scenario_F (st : App.t) :
  App.query st = "" →
  resolve (App.nodes st) (App.query st) = NoLookup ∧
  App.matchMsg (doSearch st) = "" ∧
  App.highlightId (doSearch st) = App.highlightId st.
Proof. intros H. unfold doSearch. simpl. by rewrite H. Qed.

Example parse_demo :
  parseJsonPath "$.user.roles[1]" = Some ["user"; "roles"; "[1]"].
Proof. vm_compute. reflexivity. Qed.

Example build_demo :
  map Node.id (buildFlowFromJSON (JObject [("a", JArray [JPrimitive "1"; JPrimitive "2"])])).1
  = ["root"; "root.a"; "root.a[0]"; "root.a[1]"].
Proof. vm_compute. reflexivity. Qed.

(** * Further properties *)

(** ** Every value of the document and its node *)

Section Located.

Lemma located_unfold (v : json) :
  located v =
  ([], v) ::
  flat_map (λ kv, prod_map (cons kv.1) id <$> located kv.2) (entries v).
Proof.
  destruct v as [members|items|literal]; simpl; f_equal.
  - induction members as [|[k c] l IH]; simpl; [done|]. by rewrite IH.
  - generalize 0%nat as idx.
    induction items as [|c l IH]; intros idx; simpl; [done|].
    by rewrite IH.
Qed.

Lemma positions_located (v : json) : positions v = fst <$> located v.
Proof.
  induction v as [v IH] using json_entries_ind.
  rewrite positions_unfold, located_unfold. simpl. f_equal.
  induction IH as [|[k c] l Hc Hl IHl]; simpl; [done|].
  rewrite fmap_app, IHl. f_equal. simpl in Hc. rewrite Hc.
  change (map (cons k) ?l) with (cons k <$> l).
  rewrite <- !list_fmap_compose. by apply list_fmap_ext.
Qed.

Lemma json_size_unfold (v : json) :
  json_size v = S (sum_list (json_size ∘ snd <$> entries v)).
Proof.
  destruct v as [members|items|literal]; simpl; f_equal.
  - induction members as [|[k c] l IH]; simpl; [done|]. by rewrite IH.
  - match goal with
    | |- ?L = _ =>
        enough (∀ idx, L = sum_list (json_size ∘ snd <$> indexed idx items))
          as H by apply H
    end.
    induction items as [|c l IH]; intros idx; simpl; [done|].
    by rewrite <- IH.
Qed.

Lemma length_located (v : json) : length (located v) = json_size v.
Proof.
  induction v as [v IH] using json_entries_ind.
  rewrite located_unfold, json_size_unfold. simpl. f_equal.
  induction IH as [|[k c] l Hc Hl IHl]; simpl; [done|].
  rewrite length_app, length_fmap, IHl. simpl in Hc. by rewrite Hc.
Qed.

Lemma last_nonempty_default (x d d' : string) (l : list string) :
  List.last (x :: l) d = List.last (x :: l) d'.
Proof.
  revert x. induction l as [|y l IH]; intros x; [done|].
  change (List.last (y :: l) d = List.last (y :: l) d'). apply IH.
Qed.

Lemma visit_at_cons (path : string) (depth : nat) (parentId : option string)
    (keyLabel k : string) (ks : list string) (sub : json) :
  visit_at path depth parentId keyLabel (k :: ks, sub) =
  visit_at (makeChildPath path k) (S depth) (Some path) k (ks, sub).
Proof.
  destruct ks as [|k' ks]; unfold visit_at; cbn [fst snd length].
  - simpl. f_equal. lia.
  - change (List.last (k :: k' :: ks) keyLabel)
      with (List.last (k' :: ks) keyLabel).
    rewrite (last_nonempty_default k' keyLabel k).
    simpl. f_equal. lia.
Qed.

(** The calls of [traverse], read off the document. *)
Lemma visits_located (v : json) :
  ∀ path depth parentId keyLabel,
    Js.truthy path = true →
    visits v path depth parentId keyLabel =
    visit_at path depth parentId keyLabel <$> located v.
Proof.
  induction v as [v IH] using json_entries_ind.
  intros path depth parentId keyLabel Hp.
  rewrite visits_unfold, located_unfold. rewrite fmap_cons. f_equal.
  { unfold visit_at. simpl. by rewrite Nat.add_0_r. }
  rewrite or_else_truthy by done.
  induction IH as [|[k c] l Hc Hl IHl]; simpl; [done|].
  rewrite fmap_app, IHl. f_equal. simpl in Hc.
  rewrite Hc by (by apply makeChildPath_truthy).
  rewrite <- list_fmap_compose. apply list_fmap_ext.
  intros _ [ks sub] _. simpl. by rewrite visit_at_cons.
Qed.

Lemma located_depths (v : json) :
  (λ at_ : list string * json, length at_.1) <$> located v
  = preorder_depths v.
Proof.
  unfold preorder_depths. rewrite positions_located.
  by rewrite <- list_fmap_compose.
Qed.

(** The node [buildFlowFromJSON] returns for the [i]-th value. *)
Lemma build_node_lookup (v : json) (i : nat) (ks : list string) (sub : json) :
  located v !! i = Some (ks, sub) →
  (buildFlowFromJSON v).1 !! i =
  Some (shift_x (centerX_of (max_cols (preorder_depths v)))
          (node_at (take i (preorder_depths v))
             (visit_at "root" 0 None "root" (ks, sub)))).
Proof.
  intros Hi. unfold buildFlowFromJSON. rewrite build_state.
  set (vs := visits v "root" 0 None "root").
  destruct (fold_visits vs) as (_ & Hnodes & _ & Hcount).
  pose proof (build_depths v) as Hds. fold vs in Hds.
  rewrite (maxCols_of_spec _ (preorder_depths v));
    [|apply preorder_depths_nonempty|by rewrite <- Hds].
  simpl. rewrite list_lookup_fmap.
  assert (vs !! i = Some (visit_at "root" 0 None "root" (ks, sub))) as Hvis.
  { unfold vs. rewrite visits_located by done.
    by rewrite list_lookup_fmap, Hi. }
  rewrite (Hnodes i _ Hvis). simpl. by rewrite fmap_take, Hds.
Qed.

Lemma build_length (v : json) :
  length (buildFlowFromJSON v).1 = json_size v.
Proof.
  rewrite <- (length_fmap Node.id), build_ids, length_fmap.
  by rewrite positions_located, length_fmap, length_located.
Qed.

Lemma build_node_exists (v : json) (i : nat) (n : Node.t) :
  (buildFlowFromJSON v).1 !! i = Some n →
  ∃ ks sub, located v !! i = Some (ks, sub).
Proof.
  intros Hn%lookup_lt_Some. rewrite build_length, <- length_located in Hn.
  apply lookup_lt_is_Some in Hn as [[ks sub] H]. by exists ks, sub.
Qed.

End Located.

(** X1. One node per value, one edge per value other than the root: for
    every input, [buildFlowFromJSON] returns as many nodes as the document
    has values and one edge less. *)
Theorem build_counts (value : json) :
  length (buildFlowFromJSON value).1 = json_size value ∧
  S (length (buildFlowFromJSON value).2) = json_size value.
Proof.
  split; [apply build_length|].
  rewrite build_edges, length_fmap, positions_located.
  rewrite <- length_located, located_unfold. simpl.
  by rewrite length_fmap.
Qed.

(** X2. The node of a value: the [i]-th value of the document in
    pre-order, [sub] at the position [ks], gets the [i]-th node; its id is
    the path composed from [ks], its type is the kind of [sub], its label
    is the last key of [ks] (["root"] at the root) followed by [" { }"],
    [" [ ]"] or [": "] and the literal, its tooltip is the id, a line
    break and the type in upper case, and its [y] is 110 times the number
    of keys of [ks]. *)
Theorem build_node_content (value : json) (i : nat) (ks : list string)
    (sub : json) :
  located value !! i = Some (ks, sub) →
  ∃ n, (buildFlowFromJSON value).1 !! i = Some n ∧
       Node.id n = compose_path ks ∧
       Node.type n = nodeTypeOf sub ∧
       Node.label n =
         match sub with
         | JObject _ => key_of ks +:+ " { }"
         | JArray _ => key_of ks +:+ " [ ]"
         | JPrimitive literal => key_of ks +:+ ": " +:+ literal
         end ∧
       Node.tooltip n = Node.id n +:+ newline +:+ type_upper (Node.type n) ∧
       Node.y n = Z.of_nat (length ks) * 110.
Proof.
  intros Hi. eexists. split; [by apply build_node_lookup|].
  assert (Js.or_else (fold_left makeChildPath ks "root") (key_of ks)
          = compose_path ks) as Hself.
  { apply or_else_truthy. unfold compose_path.
    by rewrite fold_makeChildPath. }
  simpl. unfold key_of in *. rewrite Hself. by destruct sub.
Qed.

Lemma build_node_content_witness :
  let value := JObject [("a", JArray [JPrimitive "true"])] in
  located value !! 2%nat = Some (["a"; "[0]"], JPrimitive "true") ∧
  ∃ n, (buildFlowFromJSON value).1 !! 2%nat = Some n ∧
       Node.id n = "root.a[0]" ∧ Node.label n = "[0]: true".
Proof.
  intros value.
  assert (located value !! 2%nat = Some (["a"; "[0]"], JPrimitive "true"))
    as H by reflexivity.
  split; [exact H|].
  destruct (build_node_content value 2 _ _ H) as (n & H1 & H2 & _ & H3 & _).
  exists n. split; [exact H1|]. split; [exact H2|exact H3].
Defined.

Section Graph.

Lemma compose_path_last (ks : list string) :
  ks ≠ [] →
  compose_path ks =
  makeChildPath (compose_path (removelast ks)) (List.last ks "").
Proof.
  destruct ks as [|k ks _] using rev_ind; [done|]. intros _.
  rewrite removelast_last, last_last. unfold compose_path.
  by rewrite fold_left_app.
Qed.

Lemma build_sources (v : json) (e : Edge.t) :
  e ∈ (buildFlowFromJSON v).2 →
  Edge.source e ∈ Node.id <$> (buildFlowFromJSON v).1 ∧
  Edge.target e ∈ Node.id <$> (buildFlowFromJSON v).1.
Proof.
  intros (ks & Hks & Hne & ->)%elem_of_build_edges.
  rewrite build_ids. simpl. split; apply list_elem_of_fmap.
  - exists (removelast ks). split; [done|]. by apply positions_removelast.
  - by exists ks.
Qed.

End Graph.

(** X3. The edges, for every input (colliding keys included): the edge
    list runs parallel to the nodes after the root, the [i]-th edge
    leading into the [(i+1)]-th node; every edge has the id
    [source->target], joins the ids of two nodes of the graph, and its
    target is the child path of its source under some key, hence strictly
    longer than the source. *)
Theorem build_edges_wellformed (value : json) :
  let ns := (buildFlowFromJSON value).1 in
  let es := (buildFlowFromJSON value).2 in
  Edge.target <$> es = tail (Node.id <$> ns) ∧
  ∀ e, e ∈ es →
    Edge.id e = Edge.source e +:+ "->" +:+ Edge.target e ∧
    Edge.source e ∈ Node.id <$> ns ∧
    Edge.target e ∈ Node.id <$> ns ∧
    (∃ key, Edge.target e = makeChildPath (Edge.source e) key) ∧
    (String.length (Edge.source e) < String.length (Edge.target e))%nat.
Proof.
  intros ns es. unfold ns, es. split.
  - rewrite build_targets, build_ids. by rewrite positions_unfold.
  - intros e He. pose proof (build_sources _ _ He) as [Hs Ht].
    apply elem_of_build_edges in He as (ks & Hks & Hne & ->).
    split_and!; [done..| |].
    + exists (List.last ks ""). simpl. by apply compose_path_last.
    + simpl. by apply compose_path_longer.
Qed.

Lemma build_edges_wellformed_witness :
  let value := JObject [("a", JArray [JPrimitive "1"])] in
  let e := Edge.mk "root.a->root.a[0]" "root.a" "root.a[0]" in
  e ∈ (buildFlowFromJSON value).2 ∧
  Edge.source e ∈ Node.id <$> (buildFlowFromJSON value).1 ∧
  ∃ key, Edge.target e = makeChildPath (Edge.source e) key.
Proof.
  intros value e.
  assert (e ∈ (buildFlowFromJSON value).2) as He.
  { apply list_elem_of_lookup. exists 1%nat. reflexivity. }
  split; [exact He|].
  destruct (proj2 (build_edges_wellformed value) e He)
    as (_ & Hs & _ & Hk & _).
  split; [exact Hs|exact Hk].
Defined.

(** X4. Connected and acyclic, for every input: every node is reached
    from ["root"] along the edges, no path of edges leads from a node id
    back to itself, and the first node is the only one with the id
    ["root"]. *)
Theorem build_connected_acyclic (value : json) :
  let ns := (buildFlowFromJSON value).1 in
  let es := (buildFlowFromJSON value).2 in
  (∀ n, n ∈ ns → rtc (edge_rel es) "root" (Node.id n)) ∧
  (∀ a, ¬ tc (edge_rel es) a a) ∧
  (∀ i n, ns !! i = Some n → (Node.id n = "root" ↔ i = 0%nat)).
Proof.
  intros ns es. unfold ns, es. split_and!.
  - intros n (ks & Hks & ->)%elem_of_build_ids. by apply build_reachable.
  - apply build_acyclic.
  - intros i n Hn.
    assert ((Node.id <$> (buildFlowFromJSON value).1) !! i = Some (Node.id n))
      as Hid by (by rewrite list_lookup_fmap, Hn).
    split.
    + intros Hroot. rewrite build_ids, list_lookup_fmap in Hid.
      destruct (positions value !! i) as [ks|] eqn:E; [|done].
      injection Hid as Hid. rewrite Hroot in Hid.
      apply compose_path_root in Hid as ->.
      destruct i as [|i]; [done|].
      rewrite positions_unfold in E. simpl in E.
      apply list_elem_of_lookup_2 in E.
      exfalso. eapply (positions_tail_nonempty value); [|done].
      by rewrite positions_unfold.
    + intros ->. rewrite build_root_id in Hid. by injection Hid.
Qed.

Lemma build_connected_acyclic_witness :
  let n := Node.mk "root.a.b" (-130) 220 "b: 1"
             ("root.a.b" +:+ newline +:+ "PRIMITIVE") primitive in
  n ∈ (buildFlowFromJSON colliding_value).1 ∧
  rtc (edge_rel (buildFlowFromJSON colliding_value).2) "root" (Node.id n).
Proof.
  intros n.
  assert (n ∈ (buildFlowFromJSON colliding_value).1) as Hn.
  { apply list_elem_of_lookup. exists 2%nat. reflexivity. }
  split; [exact Hn|].
  exact (proj1 (build_connected_acyclic colliding_value) n Hn).
Defined.

(** ** Depth tiers *)

Section Tiers.

Lemma occurrences_app (d : nat) (a b : list nat) :
  occurrences d (a ++ b) = (occurrences d a + occurrences d b)%nat.
Proof. unfold occurrences. by rewrite filter_app, length_app. Qed.

Lemma occurrences_take_le (d i j : nat) (ds : list nat) :
  (i ≤ j)%nat → (occurrences d (take i ds) ≤ occurrences d (take j ds))%nat.
Proof.
  intros Hij. rewrite <- (take_drop i (take j ds)), take_take.
  rewrite Nat.min_l by done. rewrite occurrences_app. lia.
Qed.

Lemma occurrences_take_S (d i : nat) (ds : list nat) :
  ds !! i = Some d →
  occurrences d (take (S i) ds) = S (occurrences d (take i ds)).
Proof.
  intros Hi. rewrite (take_S_r _ _ _ Hi), occurrences_snoc.
  rewrite decide_True by done. lia.
Qed.

Lemma occurrences_take_lt (d i j : nat) (ds : list nat) :
  (i < j)%nat → ds !! i = Some d →
  (occurrences d (take i ds) < occurrences d (take j ds))%nat.
Proof.
  intros Hij Hi. pose proof (occurrences_take_le d (S i) j ds Hij).
  rewrite occurrences_take_S in H by done. lia.
Qed.

Lemma occurrences_take_all (d i : nat) (ds : list nat) :
  ds !! i = Some d → (occurrences d (take i ds) < occurrences d ds)%nat.
Proof.
  intros Hi. pose proof (lookup_lt_Some _ _ _ Hi).
  rewrite <- (firstn_all ds) at 2. by apply occurrences_take_lt.
Qed.

(** Every column below the count of a tier is taken by one of its
    nodes. *)
Lemma column_filled (d c : nat) (ds : list nat) :
  (c < occurrences d ds)%nat →
  ∃ i, ds !! i = Some d ∧ occurrences d (take i ds) = c.
Proof.
  induction ds as [|x ds IH] using rev_ind; [unfold occurrences; simpl; lia|].
  rewrite occurrences_snoc. intros Hc.
  destruct (decide (c < occurrences d ds)%nat) as [Hlt|Hge].
  - destruct (IH Hlt) as (i & Hi & Hocc). exists i.
    pose proof (lookup_lt_Some _ _ _ Hi).
    rewrite lookup_app_l, take_app_le by lia. done.
  - destruct (decide (x = d)) as [->|]; [|lia].
    exists (length ds). rewrite list_lookup_middle by done.
    rewrite take_app_length. split; [done|lia].
Qed.

Lemma occurrences_le_max_cols (d : nat) (ds : list nat) :
  (occurrences d ds ≤ max_cols ds)%nat.
Proof.
  destruct (decide (d ∈ ds)) as [Hd|Hd].
  - unfold max_cols. destruct ds as [|x ds']; [by apply elem_of_nil in Hd|].
    apply max_list_elem_of_le, list_elem_of_fmap. by exists d.
  - assert (occurrences d ds = 0%nat) as ->; [|lia].
    destruct (occurrences d ds) eqn:E; [done|]. exfalso. apply Hd.
    apply occurrences_pos. lia.
Qed.

Lemma max_cols_attained (ds : list nat) :
  ds ≠ [] → ∃ d, d ∈ ds ∧ occurrences d ds = max_cols ds.
Proof.
  intros Hne. unfold max_cols. destruct ds as [|x ds']; [done|].
  set (ds := x :: ds') in *.
  assert (max_list ((λ d, occurrences d ds) <$> ds)
          ∈ (λ d, occurrences d ds) <$> ds) as Hin
    by (by apply max_list_elem).
  apply list_elem_of_fmap in Hin as (d & Heq & Hd). by exists d.
Qed.

Lemma centerX_of_half (M : nat) : centerX_of M = (Z.of_nat M - 1) * 130.
Proof.
  unfold centerX_of, X_STEP.
  replace ((Z.of_nat M - 1) * 260) with ((Z.of_nat M - 1) * 130 * 2) by lia.
  by rewrite Z.div_mul.
Qed.

(** Where the [i]-th node is put. *)
Lemma build_xy (v : json) (i : nat) (n : Node.t) :
  (buildFlowFromJSON v).1 !! i = Some n →
  ∃ d, preorder_depths v !! i = Some d ∧
       Node.x n = Z.of_nat (occurrences d (take i (preorder_depths v))) * 260
                  - (Z.of_nat (max_cols (preorder_depths v)) - 1) * 130 ∧
       Node.y n = Z.of_nat d * 110.
Proof.
  intros Hn. destruct (build_node_exists _ _ _ Hn) as (ks & sub & Hi).
  rewrite (build_node_lookup v i ks sub Hi) in Hn. injection Hn as <-.
  exists (length ks). split_and!.
  - by rewrite <- located_depths, list_lookup_fmap, Hi.
  - simpl. by rewrite centerX_of_half.
  - done.
Qed.

Lemma build_at_column (v : json) (d c : nat) :
  (c < occurrences d (preorder_depths v))%nat →
  ∃ n, n ∈ (buildFlowFromJSON v).1 ∧
       Node.x n = Z.of_nat c * 260
                  - (Z.of_nat (max_cols (preorder_depths v)) - 1) * 130 ∧
       Node.y n = Z.of_nat d * 110.
Proof.
  intros (i & Hi & Hocc)%column_filled.
  assert (is_Some ((buildFlowFromJSON v).1 !! i)) as [n Hn].
  { apply lookup_lt_is_Some. apply lookup_lt_Some in Hi.
    unfold preorder_depths in Hi. rewrite length_fmap in Hi.
    by rewrite <- (length_fmap Node.id), build_ids, length_fmap. }
  destruct (build_xy _ _ _ Hn) as (d' & Hd' & Hx & Hy).
  rewrite Hi in Hd'. injection Hd' as <-.
  exists n. split_and!; [by eapply list_elem_of_lookup_2|by rewrite Hx, Hocc|done].
Qed.

End Tiers.

(** X5. No two nodes overlap: for every input, nodes at different places
    of the node list get different positions (nodes of one depth stand in
    different columns, nodes of different depths in different rows). *)
Theorem build_no_overlap (value : json) (i j : nat) (a b : Node.t) :
  i ≠ j →
  (buildFlowFromJSON value).1 !! i = Some a →
  (buildFlowFromJSON value).1 !! j = Some b →
  (Node.x a, Node.y a) ≠ (Node.x b, Node.y b).
Proof.
  intros Hij (d & Hd & Hx & Hy)%build_xy (d' & Hd' & Hx' & Hy')%build_xy.
  intros [= Hxx Hyy]. rewrite Hy, Hy' in Hyy.
  assert (d' = d) as -> by lia.
  rewrite Hx, Hx' in Hxx.
  destruct (decide (i < j)%nat).
  - pose proof (occurrences_take_lt d i j _ ltac:(done) Hd). lia.
  - pose proof (occurrences_take_lt d j i _ ltac:(lia) Hd'). lia.
Qed.

Lemma build_no_overlap_witness :
  let value := JArray [JPrimitive "1"; JPrimitive "2"] in
  (Node.x (Node.mk "root[0]" (-130) 110 "[0]: 1"
             ("root[0]" +:+ newline +:+ "PRIMITIVE") primitive),
   110)
  ≠ (Node.x (Node.mk "root[1]" 130 110 "[1]: 2"
               ("root[1]" +:+ newline +:+ "PRIMITIVE") primitive),
     110).
Proof.
  intros value.
  exact (build_no_overlap value 1 2 _ _ ltac:(discriminate)
           (eq_refl : (buildFlowFromJSON value).1 !! 1%nat = Some _)
           (eq_refl : (buildFlowFromJSON value).1 !! 2%nat = Some _)).
Defined.

(** X6. The layout is centred and has no gaps: with [maxCols] the size of
    the largest depth tier and [centerX = (maxCols - 1) * 130], every node
    has [-centerX <= x <= centerX], [x + centerX] a multiple of 260 and
    [y >= 0]; some tier has a node at [-centerX] and a node at [centerX];
    and every node right of [-centerX] has a left neighbour in its tier,
    260 to the left. *)
Theorem build_centred (value : json) :
  let ns := (buildFlowFromJSON value).1 in
  let centerX := (Z.of_nat (max_cols (preorder_depths value)) - 1) * 130 in
  (1 ≤ max_cols (preorder_depths value) ≤ json_size value)%nat ∧
  (∀ n, n ∈ ns →
     - centerX ≤ Node.x n ≤ centerX ∧ 0 ≤ Node.y n ∧
     ((Node.x n + centerX) mod 260 = 0)) ∧
  (∃ a b, a ∈ ns ∧ b ∈ ns ∧ Node.y a = Node.y b ∧
          Node.x a = - centerX ∧ Node.x b = centerX) ∧
  (∀ n, n ∈ ns → - centerX < Node.x n →
     ∃ m, m ∈ ns ∧ Node.y m = Node.y n ∧ Node.x m = Node.x n - 260).
Proof.
  intros ns centerX. unfold ns, centerX. clear ns centerX.
  set (ds := preorder_depths value).
  destruct (max_cols_attained ds (preorder_depths_nonempty value))
    as (dmax & Hdmax & Hmax).
  assert (0 < max_cols ds)%nat as Hpos
    by (rewrite <- Hmax; by apply occurrences_pos).
  split_and!.
  - lia.
  - rewrite <- Hmax. unfold occurrences.
    etrans; [apply length_filter|]. unfold ds, preorder_depths.
    by rewrite length_fmap, positions_located, length_fmap, length_located.
  - intros n (i & Hn)%list_elem_of_lookup.
    destruct (build_xy _ _ _ Hn) as (d & Hd & Hx & Hy). fold ds in Hd, Hx.
    pose proof (occurrences_take_all d i ds Hd) as Hlt.
    pose proof (occurrences_le_max_cols d ds) as Hle.
    rewrite Hx, Hy. split_and!; [lia..|].
    replace (Z.of_nat (occurrences d (take i ds)) * 260
             - (Z.of_nat (max_cols ds) - 1) * 130
             + (Z.of_nat (max_cols ds) - 1) * 130)
      with (Z.of_nat (occurrences d (take i ds)) * 260) by lia.
    apply Z_mod_mult.
  - destruct (build_at_column value dmax 0) as (a & Ha & Hxa & Hya);
      [fold ds; lia|].
    destruct (build_at_column value dmax (max_cols ds - 1))
      as (b & Hb & Hxb & Hyb); [fold ds; lia|].
    exists a, b. fold ds in Hxa, Hxb. split_and!; [done..|lia|lia|lia].
  - intros n (i & Hn)%list_elem_of_lookup Hleft.
    destruct (build_xy _ _ _ Hn) as (d & Hd & Hx & Hy). fold ds in Hd, Hx.
    pose proof (occurrences_take_all d i ds Hd) as Hlt.
    destruct (build_at_column value d (occurrences d (take i ds) - 1))
      as (m & Hm & Hxm & Hym); [fold ds; lia|].
    fold ds in Hxm. exists m. split_and!; [done|lia|lia].
Qed.

Lemma build_centred_witness :
  let value := JArray [JPrimitive "1"; JPrimitive "2"; JPrimitive "3"] in
  let n := Node.mk "root[2]" 260 110 "[2]: 3"
             ("root[2]" +:+ newline +:+ "PRIMITIVE") primitive in
  n ∈ (buildFlowFromJSON value).1 ∧
  (- 260 ≤ Node.x n ≤ 260) ∧
  ∃ m, m ∈ (buildFlowFromJSON value).1 ∧ Node.y m = 110 ∧ Node.x m = 0.
Proof.
  intros value n.
  assert (n ∈ (buildFlowFromJSON value).1) as Hn.
  { apply list_elem_of_lookup. exists 3%nat. reflexivity. }
  split; [exact Hn|].
  destruct (build_centred value) as (_ & Hbound & _ & Hleft).
  split; [exact (proj1 (Hbound n Hn))|].
  exact (Hleft n Hn ltac:(reflexivity)).
Defined.

(** ** Root markers and normalization *)

Section RootMarkers.

Lemma trimEnd_last (s : string) (c : ascii) :
  last_char (Js.trimEnd s) = Some c → Js.is_white_space c = false.
Proof.
  induction s as [|x s IH]; [done|]. rewrite trimEnd_cons.
  destruct (Js.is_white_space x && negb (Js.truthy (Js.trimEnd s))) eqn:E;
    [done|].
  destruct (Js.trimEnd s) as [|y r] eqn:Er.
  - simpl. intros [= <-]. simpl in E. by rewrite andb_true_r in E.
  - exact IH.
Qed.

Lemma trimmed_ends (q : string) :
  Js.trim q = q →
  (∀ c r, q = String c r → Js.is_white_space c = false) ∧
  (∀ c, last_char q = Some c → Js.is_white_space c = false).
Proof.
  intros Hq. split.
  - intros c r ->. unfold Js.trim in Hq.
    destruct (trimStart_shape (String c r)) as [H|(c' & r' & H & Hc')];
      rewrite H in Hq; [done|].
    rewrite trimEnd_cons_keep in Hq by done. by injection Hq as <- _.
  - intros c Hc. rewrite <- Hq in Hc. by apply trimEnd_last in Hc.
Qed.

Lemma trim_prefixed (x : ascii) (pre q : string) :
  Js.is_white_space x = false →
  (∀ c, last_char (String x pre) = Some c → Js.is_white_space c = false) →
  Js.trim q = q →
  Js.trim (String x pre +:+ q) = String x pre +:+ q.
Proof.
  intros Hx Hpre [Hfirst Hlast]%trimmed_ends. apply trim_id.
  - by intros c r [= <- _].
  - intros c. destruct q as [|y q].
    + rewrite app_empty_r. apply Hpre.
    + rewrite last_char_append by done. apply Hlast.
Qed.

Lemma scan_leading_dot (q : string) :
  scan (String "."%char q) "" [] = scan q "" [].
Proof. by rewrite scan_dot, flush_empty. Qed.

Lemma scan_strip_dot (q : string) :
  scan (if Js.startsWith "." q then Js.slice1 q else q) "" [] = scan q "" [].
Proof.
  destruct q as [|c r]; [done|]. rewrite startsWith_char.
  case_bool_decide; [subst c|done]. simpl Js.slice1.
  by rewrite scan_leading_dot.
Qed.

Lemma parse_trimmed (q : string) :
  Js.trim q = q → Js.startsWith "$" q = false →
  parseJsonPath q = filter (λ t, Is_true (Js.truthy t)) <$> scan q "" [].
Proof.
  intros Hq Hd. rewrite parseJsonPath_unfold, Hq.
  destruct q as [|c r]; [done|]. simpl negb. cbv iota.
  unfold strip_root. rewrite Hd. by rewrite scan_strip_dot.
Qed.

Lemma parse_dollar (q : string) :
  Js.trim q = q →
  parseJsonPath ("$" +:+ q)
  = filter (λ t, Is_true (Js.truthy t)) <$> scan q "" [].
Proof.
  intros Hq. rewrite parseJsonPath_unfold. simpl negb. cbv iota.
  rewrite (trim_prefixed "$"%char "" q) by (done || by intros ? [= <-]).
  unfold strip_root.
  change (Js.startsWith "$" ("$" +:+ q)) with true. cbv iota.
  change (Js.slice1 ("$" +:+ q)) with q. by rewrite scan_strip_dot.
Qed.

Lemma parse_dollar_dot (q : string) :
  Js.trim q = q →
  parseJsonPath ("$." +:+ q)
  = filter (λ t, Is_true (Js.truthy t)) <$> scan q "" [].
Proof.
  intros Hq. rewrite parseJsonPath_unfold. simpl negb. cbv iota.
  rewrite (trim_prefixed "$"%char "." q) by (done || by intros ? [= <-]).
  done.
Qed.

Lemma parse_dot (q : string) :
  Js.trim q = q →
  parseJsonPath ("." +:+ q)
  = filter (λ t, Is_true (Js.truthy t)) <$> scan q "" [].
Proof.
  intros Hq. rewrite parseJsonPath_unfold. simpl negb. cbv iota.
  rewrite (trim_prefixed "."%char "" q) by (done || by intros ? [= <-]).
  done.
Qed.

End RootMarkers.

(** X7. The root markers are optional: for a path without surrounding
    white space that does not itself start with ["$"], [parseJsonPath]
    gives the same result with and without a leading ["$"], ["$."] or
    ["."]. *)
Theorem root_markers_optional (q : string) :
  Js.trim q = q → Js.startsWith "$" q = false →
  parseJsonPath ("$" +:+ q) = parseJsonPath q ∧
  parseJsonPath ("$." +:+ q) = parseJsonPath q ∧
  parseJsonPath ("." +:+ q) = parseJsonPath q.
Proof.
  intros Hq Hd.
  by rewrite parse_dollar, parse_dollar_dot, parse_dot, parse_trimmed.
Qed.

Lemma root_markers_optional_witness :
  parseJsonPath "$.user.roles[1]" = parseJsonPath "user.roles[1]" ∧
  parseJsonPath ".user.roles[1]" = parseJsonPath "user.roles[1]".
Proof.
  destruct (root_markers_optional "user.roles[1]" eq_refl eq_refl)
    as (_ & H1 & H2).
  split; [exact H1|exact H2].
Defined.

(** X8. The normalization of [doSearch] never changes the tokens: for
    every query, the normalized trimmed query tokenizes (or fails) like
    the trimmed query itself, so [doSearch] finds what [findNodeByPath]
    finds for the trimmed query. *)
Theorem normalization_keeps_tokens (nodes : list Node.t) (query : string) :
  parseJsonPath (normalized (Js.trim query)) = parseJsonPath (Js.trim query) ∧
  findNodeByPath nodes (normalized (Js.trim query))
    = findNodeByPath nodes (Js.trim query) ∧
  resolve nodes query =
    if Js.truthy (Js.trim query) then
      match findNodeByPath nodes (Js.trim query) with
      | None => NotFound
      | Some n => Found n
      end
    else NoLookup.
Proof.
  assert (parseJsonPath (normalized (Js.trim query))
          = parseJsonPath (Js.trim query)) as H.
  { unfold normalized.
    destruct (_ || _) eqn:E; [done|].
    apply orb_false_iff in E as [E _]. apply orb_false_iff in E as [E _].
    apply orb_false_iff in E as [E _].
    by rewrite parse_dollar_dot, parse_trimmed by (apply trim_idem || done). }
  split; [exact H|].
  assert (findNodeByPath nodes (normalized (Js.trim query))
          = findNodeByPath nodes (Js.trim query)) as H'
    by (unfold findNodeByPath; by rewrite H).
  split; [exact H'|]. unfold resolve. rewrite H'.
  by destruct (Js.truthy (Js.trim query)).
Qed.

(** ** What [findNodeByPath] returns *)

Section FirstMatch.

Lemma find_by_id_first (path : string) (nodes : list Node.t) (n : Node.t) :
  find_by_id path nodes = Some n ↔ ∃ i, first_with_id path nodes i n.
Proof.
  unfold find_by_id, first_with_id.
  induction nodes as [|x l IH]; simpl.
  - split; [done|]. by intros (i & H & _).
  - case_bool_decide as Hx.
    + split.
      * intros [= ->]. exists 0%nat. split_and!; [done..|]. intros; lia.
      * intros ([|i] & Hi & Hid & Hfirst); [by injection Hi as ->|].
        exfalso. by apply (Hfirst 0%nat x); [lia|..].
    + rewrite IH. split.
      * intros (i & Hi & Hid & Hfirst). exists (S i). split_and!; [done..|].
        intros [|j] m Hj Hm; [by injection Hm as <-|].
        apply (Hfirst j); [lia|done].
      * intros ([|i] & Hi & Hid & Hfirst).
        { injection Hi as ->. done. }
        exists i. split_and!; [done..|].
        intros j m Hj Hm. apply (Hfirst (S j)); [lia|done].
Qed.

Lemma find_by_id_None (path : string) (nodes : list Node.t) :
  find_by_id path nodes = None ↔ ∀ n, n ∈ nodes → Node.id n ≠ path.
Proof.
  unfold find_by_id. split.
  - intros H n Hn%list_elem_of_In.
    pose proof (find_none _ _ H n Hn) as Hb. simpl in Hb.
    by apply bool_decide_eq_false in Hb.
  - intros H. destruct (List.find _ nodes) as [n|] eqn:E; [|done].
    apply find_some in E as [Hn%list_elem_of_In Hb].
    apply bool_decide_eq_true in Hb. by apply H in Hn.
Qed.

Lemma wf_token_path_key (t : string) : wf_token t → path_key t.
Proof. intros [[_ H]|H]; [by left|by right]. Qed.

End FirstMatch.

(** X9. What [findNodeByPath] returns, for any node list: a node exactly
    when the path tokenizes and the node is the first of the list whose
    id is the path composed from the tokens; [null] exactly when the path
    does not tokenize or no node has the composed id. *)
Theorem findNodeByPath_first_match (nodes : list Node.t) (pathStr : string) :
  (∀ n, findNodeByPath nodes pathStr = Some n ↔
        ∃ tokens i, parseJsonPath pathStr = Some tokens ∧
                    first_with_id (compose_path tokens) nodes i n) ∧
  (findNodeByPath nodes pathStr = None ↔
     parseJsonPath pathStr = None ∨
     ∃ tokens, parseJsonPath pathStr = Some tokens ∧
               ∀ n, n ∈ nodes → Node.id n ≠ compose_path tokens).
Proof.
  unfold findNodeByPath. destruct (parseJsonPath pathStr) as [ts|]; split.
  - intros n. rewrite find_by_id_first. split.
    + intros [i H]. by exists ts, i.
    + intros (ts' & i & [= <-] & H). by exists i.
  - rewrite find_by_id_None. split.
    + intros H. right. by exists ts.
    + intros [|(ts' & [= <-] & H)]; done.
  - intros n. split; [done|]. by intros (? & ? & ? & _).
  - split; [by left|done].
Qed.

Lemma findNodeByPath_first_match_witness :
  let nodes := (buildFlowFromJSON colliding_value).1 in
  let n := Node.mk "root.a.b" (-130) 220 "b: 1"
             ("root.a.b" +:+ newline +:+ "PRIMITIVE") primitive in
  findNodeByPath nodes "a.b" = Some n ∧
  ∃ tokens i, parseJsonPath "a.b" = Some tokens ∧
              first_with_id (compose_path tokens) nodes i n.
Proof.
  intros nodes n.
  assert (findNodeByPath nodes "a.b" = Some n) as H by reflexivity.
  split; [exact H|].
  exact (proj1 (proj1 (findNodeByPath_first_match nodes "a.b") n) H).
Defined.

(** X10. Two paths that tokenize compose the same canonical path exactly
    when they have the same tokens: different token sequences never
    resolve to the same node id. *)
Theorem same_path_same_tokens (a b : string) (ta tb : list string) :
  parseJsonPath a = Some ta → parseJsonPath b = Some tb →
  (compose_path ta = compose_path tb ↔ ta = tb).
Proof.
  intros Ha%parseJsonPath_wf Hb%parseJsonPath_wf.
  split; [|by intros ->].
  apply compose_path_inj; eapply Forall_impl; eauto using wf_token_path_key.
Qed.

Lemma same_path_same_tokens_witness :
  parseJsonPath "$.a[ 0 ].b" = Some ["a"; "[0]"; "b"] ∧
  parseJsonPath "a[0]b" = Some ["a"; "[0]"; "b"] ∧
  (compose_path ["a"; "[0]"; "b"] = compose_path ["a"; "[0]"; "b"]
   ↔ ["a"; "[0]"; "b"] = ["a"; "[0]"; "b"]).
Proof.
  assert (parseJsonPath "$.a[ 0 ].b" = Some ["a"; "[0]"; "b"]) as Ha
    by reflexivity.
  assert (parseJsonPath "a[0]b" = Some ["a"; "[0]"; "b"]) as Hb
    by reflexivity.
  split; [exact Ha|]. split; [exact Hb|].
  exact (same_path_same_tokens _ _ _ _ Ha Hb).
Defined.

(** ** Search and highlight *)

Section Highlight.

Lemma highlighted_decorate (h : string) (n : Node.t) :
  highlighted (decorate h n) ↔ Node.id n = h.
Proof.
  unfold highlighted, decorate. case_bool_decide; simpl; [done|].
  split; [done|]. by intros ?.
Qed.

Lemma decorate_node (h : string) (n : Node.t) : (decorate h n).1 = n.
Proof. unfold decorate. by case_bool_decide. Qed.

Lemma build_id_nonempty (v : json) (n : Node.t) :
  n ∈ (buildFlowFromJSON v).1 → Node.id n ≠ "".
Proof.
  intros (ks & _ & ->)%elem_of_build_ids. by rewrite compose_path_segments.
Qed.

Lemma resolve_Found_elem (nodes : list Node.t) (q : string) (n : Node.t) :
  resolve nodes q = Found n → n ∈ nodes.
Proof. by intros (ts & _ & _ & H)%resolve_Found%findNodeByPath_Some. Qed.

Lemma doSearch_frame (st : App.t) :
  App.json (doSearch st) = App.json st ∧
  App.nodes (doSearch st) = App.nodes st ∧
  App.edges (doSearch st) = App.edges st ∧
  App.builds (doSearch st) = App.builds st ∧
  App.raw (doSearch st) = App.raw st ∧
  App.error (doSearch st) = App.error st ∧
  App.query (doSearch st) = App.query st.
Proof. unfold doSearch. simpl. by destruct (resolve _ _). Qed.

Lemma doSearch_highlight (st : App.t) :
  App.highlightId (doSearch st) =
  match resolve (App.nodes st) (App.query st) with
  | NoLookup => App.highlightId st
  | NotFound => ""
  | Found n => Node.id n
  end.
Proof. unfold doSearch. simpl. by destruct (resolve _ _). Qed.

End Highlight.

(** X11. [doSearch] and the highlight: [doSearch] never changes the JSON
    value, the nodes, the edges, the raw text, the error or the query;
    [decoratedNodes] keeps the nodes and marks exactly those whose id is
    the highlight id; after a blank query the highlight is what it was,
    after a failed search no node of a built graph is marked, after a
    successful one the node found is a node of the graph and is marked. *)
Theorem search_highlights (st : App.t) :
  App.nodes st = (buildFlowFromJSON (App.json st)).1 →
  let st' := doSearch st in
  (App.json st' = App.json st ∧ App.nodes st' = App.nodes st ∧
   App.edges st' = App.edges st ∧ App.raw st' = App.raw st ∧
   App.error st' = App.error st ∧ App.query st' = App.query st) ∧
  (decoratedNodes st').*1 = App.nodes st ∧
  (∀ d, d ∈ decoratedNodes st' →
        (highlighted d ↔ Node.id d.1 = App.highlightId st')) ∧
  match resolve (App.nodes st) (App.query st) with
  | NoLookup =>
      App.matchMsg st' = "" ∧ App.highlightId st' = App.highlightId st
  | NotFound =>
      App.matchMsg st' = "No match found" ∧
      ∀ d, d ∈ decoratedNodes st' → ¬ highlighted d
  | Found n =>
      App.matchMsg st' = "Match found" ∧ n ∈ App.nodes st ∧
      ∃ d, d ∈ decoratedNodes st' ∧ d.1 = n ∧ highlighted d
  end.
Proof.
  intros Hbuilt st'. unfold st'.
  destruct (doSearch_frame st) as (Hj & Hn & He & _ & Hr & Herr & Hq).
  pose proof (doSearch_highlight st) as Hh.
  assert (∀ d, d ∈ decoratedNodes (doSearch st) →
            ∃ n, n ∈ App.nodes st ∧
                 d = decorate (App.highlightId (doSearch st)) n) as Hdec.
  { intros d (n & -> & Hin)%list_elem_of_fmap. exists n.
    by rewrite Hn in Hin. }
  split_and!; [done..| | |].
  - unfold decoratedNodes. rewrite Hn, <- list_fmap_compose.
    rewrite <- (list_fmap_id (App.nodes st)) at 2.
    apply list_fmap_ext. intros _ n _. apply decorate_node.
  - intros d (n & _ & ->)%Hdec. by rewrite highlighted_decorate, decorate_node.
  - destruct (resolve (App.nodes st) (App.query st)) as [| |n] eqn:E.
    + split; [|done]. unfold doSearch. simpl. by rewrite E.
    + split; [unfold doSearch; simpl; by rewrite E|].
      intros d (n & Hin & ->)%Hdec. rewrite highlighted_decorate, Hh.
      rewrite Hbuilt in Hin. by apply build_id_nonempty in Hin.
    + pose proof (resolve_Found_elem _ _ _ E) as Hin.
      split_and!; [unfold doSearch; simpl; by rewrite E|done|].
      exists (decorate (App.highlightId (doSearch st)) n). split_and!.
      * unfold decoratedNodes. rewrite Hn. apply list_elem_of_fmap.
        by exists n.
      * apply decorate_node.
      * by rewrite highlighted_decorate, Hh.
Qed.

Lemma search_highlights_witness :
  let value := JObject [("a", JPrimitive "1")] in
  let st := App.mk "" "" value (buildFlowFromJSON value).1
              (buildFlowFromJSON value).2 "a" "" "" 1 in
  App.nodes st = (buildFlowFromJSON (App.json st)).1 ∧
  (decoratedNodes (doSearch st)).*1 = App.nodes st.
Proof.
  intros value st.
  assert (App.nodes st = (buildFlowFromJSON (App.json st)).1) as H
    by reflexivity.
  split; [exact H|].
  exact (proj1 (proj2 (search_highlights st H))).
Defined.

(** X12. Exactly one node is highlighted after a successful search in a
    graph of plain keys: when no object key holds a dot or an opening
    bracket, then after [doSearch] has found a node there is one place in
    [decoratedNodes] whose node is marked, the place of the node found. *)
Theorem one_node_highlighted (st : App.t) (n : Node.t) :
  App.nodes st = (buildFlowFromJSON (App.json st)).1 →
  distinct_keys (App.json st) → keys_satisfy plain_key (App.json st) →
  resolve (App.nodes st) (App.query st) = Found n →
  ∃ i, App.nodes st !! i = Some n ∧
       ∀ j d, decoratedNodes (doSearch st) !! j = Some d →
              (highlighted d ↔ j = i).
Proof.
  intros Hbuilt Hd Hk Hfound.
  pose proof (resolve_Found_elem _ _ _ Hfound) as Hin.
  apply list_elem_of_lookup in Hin as [i Hi]. exists i. split; [done|].
  intros j d Hj. unfold decoratedNodes in Hj.
  destruct (doSearch_frame st) as (_ & Hn & _).
  rewrite Hn, list_lookup_fmap in Hj.
  destruct (App.nodes st !! j) as [m|] eqn:Hm; [|done]. injection Hj as <-.
  rewrite highlighted_decorate, doSearch_highlight, Hfound.
  pose proof (build_ids_NoDup _ Hd Hk) as Hnd. rewrite <- Hbuilt in Hnd.
  split.
  - intros Hid. eapply (NoDup_lookup _ j i (Node.id n) Hnd).
    + by rewrite list_lookup_fmap, Hm, <- Hid.
    + by rewrite list_lookup_fmap, Hi.
  - intros ->. rewrite Hi in Hm. by injection Hm as ->.
Qed.

Lemma one_node_highlighted_witness :
  let value := JObject [("a", JPrimitive "1")] in
  let st := App.mk "" "" value (buildFlowFromJSON value).1
              (buildFlowFromJSON value).2 "a" "" "" 1 in
  let n := Node.mk "root.a" 0 110 "a: 1"
             ("root.a" +:+ newline +:+ "PRIMITIVE") primitive in
  resolve (App.nodes st) (App.query st) = Found n ∧
  ∃ i, App.nodes st !! i = Some n ∧
       ∀ j d, decoratedNodes (doSearch st) !! j = Some d →
              (highlighted d ↔ j = i).
Proof.
  intros value st n.
  assert (resolve (App.nodes st) (App.query st) = Found n) as Hf
    by reflexivity.
  split; [exact Hf|].
  apply (one_node_highlighted st n); [reflexivity| |simpl; done|exact Hf].
  simpl. split_and!; try done.
  apply NoDup_ListNoDup; repeat constructor; simpl; intuition discriminate.
Defined.

(** ** The page and its events *)

Section Page.

Variable JSON_parse : string → option json.

Lemma same_value_object (v : json) : same_value v (JObject []) = false.
Proof. by destruct v. Qed.

Lemma setJson_shows (v : json) (st : App.t) :
  shows_built_graph st → shows_built_graph (setJson v st).
Proof.
  intros H. unfold setJson. destruct (same_value _ _); [done|].
  split_and!; simpl; [done..|by left].
Qed.

Lemma doSearch_shows (st : App.t) :
  shows_built_graph st → shows_built_graph (doSearch st).
Proof.
  intros (Hn & He & Hh).
  destruct (doSearch_frame st) as (Hj & Hn' & He' & _).
  split_and!; [by rewrite Hn', Hj|by rewrite He', Hj|].
  rewrite doSearch_highlight, Hn'.
  destruct (resolve _ _) as [| |n] eqn:E; [done|by left|].
  right. exists n. split; [|done]. by eapply resolve_Found_elem.
Qed.

Lemma handle_shows (e : event) (p : Page.t) :
  shows_built_graph (Page.app p) →
  shows_built_graph (Page.app (handle JSON_parse e p)).
Proof.
  intros H. destruct e; simpl; try done.
  - unfold visualize. simpl.
    destruct (JSON_parse (App.raw (Page.app p))); [|done].
    by apply setJson_shows.
  - unfold setJson. simpl. rewrite same_value_object.
    split_and!; simpl; [done..|by left].
  - by apply doSearch_shows.
  - unfold onNodeClick. by destruct supported.
Qed.

Lemma handle_builds (e : event) (p : Page.t) :
  (App.builds (Page.app p)
   ≤ App.builds (Page.app (handle JSON_parse e p))
   ≤ App.builds (Page.app p) + if rebuilds e then 1 else 0)%nat.
Proof.
  destruct e; simpl; try lia.
  - unfold visualize, setJson. simpl.
    destruct (JSON_parse _); simpl; [|lia].
    destruct (same_value _ _); simpl; lia.
  - unfold setJson. simpl. rewrite same_value_object. simpl. lia.
  - destruct (doSearch_frame (Page.app p)) as (_ & _ & _ & -> & _). lia.
  - unfold onNodeClick. destruct supported; simpl; lia.
Qed.

Lemma handle_frame (e : event) (p : Page.t) :
  rebuilds e = false →
  App.json (Page.app (handle JSON_parse e p)) = App.json (Page.app p) ∧
  App.nodes (Page.app (handle JSON_parse e p)) = App.nodes (Page.app p) ∧
  App.edges (Page.app (handle JSON_parse e p)) = App.edges (Page.app p).
Proof.
  destruct e; simpl; try done.
  - intros _. by destruct (doSearch_frame (Page.app p)) as (-> & -> & -> & _).
  - intros _. unfold onNodeClick. by destruct supported.
Qed.

Lemma run_snoc (es : list event) (e : event) (p : Page.t) :
  run JSON_parse (es ++ [e]) p = handle JSON_parse e (run JSON_parse es p).
Proof. unfold run. by rewrite fold_left_app. Qed.

End Page.

(** X13. The callbacks keep the graph consistent: if the nodes and edges
    shown are those built from the JSON value held, and the highlight id
    is empty or the id of a node shown, then the same holds after any run
    of typing, [visualize], [clearAll], [doSearch], node clicks, toast
    closing and theme toggling. *)
Theorem run_shows_built_graph (JSON_parse : string → option json)
    (es : list event) (p : Page.t) :
  shows_built_graph (Page.app p) →
  shows_built_graph (Page.app (run JSON_parse es p)).
Proof.
  intros H. induction es as [|e es IH] using rev_ind; [done|].
  rewrite run_snoc. by apply handle_shows.
Qed.

Lemma run_shows_built_graph_witness :
  let parse := λ raw : string,
    if decide (raw = "[1]") then Some (JArray [JPrimitive "1"]) else None in
  let p := Page.mk (App.mk "{}" "" (JObject [])
                      (buildFlowFromJSON (JObject [])).1
                      (buildFlowFromJSON (JObject [])).2 "" "" "" 1)
             "" true None in
  let es := [TypeRaw "[1]"; Visualize; TypeQuery "[0]"; Search] in
  shows_built_graph (Page.app p) ∧
  shows_built_graph (Page.app (run parse es p)) ∧
  App.highlightId (Page.app (run parse es p)) = "root[0]".
Proof.
  intros parse p es.
  assert (shows_built_graph (Page.app p)) as H
    by (split_and!; [reflexivity|reflexivity|by left]).
  split; [exact H|]. split; [|reflexivity].
  exact (run_shows_built_graph parse es p H).
Defined.

(** X14. Among typing into the two inputs, [visualize], [clearAll],
    [doSearch], node clicks, toast closing and theme toggling, the builder
    runs for [visualize] and [clearAll] alone, at most once for each: over
    any run of these events the count of builder runs never falls and
    grows by at most the number of [Visualize] and [ClearAll] events, and
    a run of them without [Visualize] and [ClearAll] leaves the JSON
    value, the nodes and the edges as they were.  ([fillSample] and the
    handlers React Flow supplies are not among these events.) *)
Theorem run_rebuilds (JSON_parse : string → option json) (es : list event)
    (p : Page.t) :
  let p' := run JSON_parse es p in
  (App.builds (Page.app p) ≤ App.builds (Page.app p')
   ≤ App.builds (Page.app p) + length (List.filter rebuilds es))%nat ∧
  (List.filter rebuilds es = [] →
   App.json (Page.app p') = App.json (Page.app p) ∧
   App.nodes (Page.app p') = App.nodes (Page.app p) ∧
   App.edges (Page.app p') = App.edges (Page.app p)).
Proof.
  induction es as [|e es IH] using rev_ind; simpl.
  { split; [lia|done]. }
  destruct IH as [IHb IHf]. rewrite run_snoc.
  pose proof (handle_builds JSON_parse e (run JSON_parse es p)) as Hb.
  rewrite List.filter_app, length_app. simpl. split.
  - destruct (rebuilds e); simpl; lia.
  - destruct (rebuilds e) eqn:E; simpl.
    + by intros [_ ?]%app_eq_nil.
    + rewrite app_nil_r. intros (Hj & Hn & He)%IHf.
      destruct (handle_frame JSON_parse e (run JSON_parse es p) E)
        as (-> & -> & ->). done.
Qed.

Lemma run_rebuilds_witness :
  let parse := λ raw : string, @None json in
  let p := Page.mk (App.mk "{}" "" (JObject [])
                      (buildFlowFromJSON (JObject [])).1
                      (buildFlowFromJSON (JObject [])).2 "" "" "" 1)
             "" true None in
  let es := [TypeQuery "a"; Search; ToggleTheme] in
  List.filter rebuilds es = [] ∧
  App.nodes (Page.app (run parse es p)) = App.nodes (Page.app p).
Proof.
  intros parse p es.
  assert (List.filter rebuilds es = []) as H by reflexivity.
  split; [exact H|].
  exact (proj1 (proj2 (proj2 (run_rebuilds parse es p) H))).
Defined.

(** X15. [clearAll] shows the graph of the empty object and empties the
    inputs, but keeps the error message: after it the JSON value is [{}],
    the graph is the single node ["root"] (object, label ["root { }"], at
    the origin) without edges, the raw text is ["{}"], the query, the
    highlight, the match message and the toast are empty, the builder has
    run once more, and the error message, the theme and the clipboard are
    what they were. *)
Theorem clearAll_resets (p : Page.t) :
  let p' := clearAll p in
  App.json (Page.app p') = JObject [] ∧
  App.nodes (Page.app p') =
    [Node.mk "root" 0 0 "root { }" ("root" +:+ newline +:+ "OBJECT") object] ∧
  App.edges (Page.app p') = [] ∧
  App.raw (Page.app p') = "{}" ∧
  App.query (Page.app p') = "" ∧
  App.highlightId (Page.app p') = "" ∧
  App.matchMsg (Page.app p') = "" ∧
  Page.toast p' = "" ∧
  App.builds (Page.app p') = S (App.builds (Page.app p)) ∧
  App.error (Page.app p') = App.error (Page.app p) ∧
  Page.dark p' = Page.dark p ∧
  Page.clipboard p' = Page.clipboard p.
Proof.
  unfold clearAll, setJson. simpl. rewrite same_value_object.
  by split_and!.
Qed.

(** ** From a click to the highlight *)

Section Flow.

Lemma clean_keys_wf (ks : list string) :
  Forall (λ k, clean_key k ∨ index_token k) ks → Forall wf_token ks.
Proof.
  intros H. eapply Forall_impl; [exact H|]. intros x [Hx|Hx]; [left|by right].
  by apply clean_key_token.
Qed.

Lemma clean_keys_path (ks : list string) :
  Forall (λ k, clean_key k ∨ index_token k) ks → Forall path_key ks.
Proof.
  intros H. eapply Forall_impl; [exact H|].
  intros x [(Hx & _)|Hx]; [by left|by right].
Qed.




End Flow.



(** X17. A query spelled with the full id is not found: in a graph of
    clean keys whose root has no member named ["root"], searching for the
    id of any of its nodes as it is shown in the tooltip (with the leading
    ["root"]) finds nothing, because the tokenizer keeps ["root"] as a
    key and the path composed is ["root.root..."]. *)
Theorem full_id_query_not_found (value : json) (n : Node.t) :
  keys_satisfy clean_key value →
  (∀ child, ("root", child) ∉ entries value) →
  n ∈ (buildFlowFromJSON value).1 →
  ∃ ks, Node.id n = compose_path ks ∧
        parseJsonPath (normalized (Js.trim (Node.id n))) = Some ("root" :: ks) ∧
        resolve (buildFlowFromJSON value).1 (Node.id n) = NotFound.
Proof.
  intros Hk Hnoroot Hn.
  destruct (elem_of_build_ids _ _ Hn) as (ks & Hks & Hid).
  pose proof (positions_keys clean_key value Hk ks Hks) as Hall.
  pose proof (clean_keys_wf _ Hall) as Hwf.
  exists ks. split; [done|]. rewrite Hid, compose_path_segments.
  set (q := "root" +:+ segments ks).
  assert (Js.trim q = q) as Htrim.
  { apply trim_id; [by intros ?? [= <- _]|]. intros c. unfold q.
    destruct ks as [|k ks]; [by intros [= <-]|].
    rewrite last_char_append.
    - by apply segments_last.
    - simpl. intros [H _]%app_eq_empty.
      pose proof (segment_nonempty k) as Hs. by rewrite H in Hs. }
  assert (normalized q = q) as Hnorm.
  { unfold normalized, q. rewrite (startsWith_app "root").
    by rewrite orb_true_r. }
  assert (parseJsonPath q = Some ("root" :: ks)) as Hparse.
  { rewrite parse_trimmed by done. unfold q.
    rewrite scan_plain, scan_segments by done. simpl.
    rewrite filter_truthy_wf; [done|]. constructor; [by left|done]. }
  rewrite Htrim, Hnorm. split; [done|].
  unfold resolve, findNodeByPath. rewrite Htrim, Hnorm, Hparse. simpl.
  destruct (find_by_id _ _) as [m|] eqn:E; [|done]. exfalso.
  apply find_by_id_Some in E as [Hm Hin].
  destruct (elem_of_build_ids _ _ Hin) as (ks' & Hks' & Hid').
  rewrite Hid' in Hm. apply compose_path_inj in Hm.
  - subst ks'. apply elem_of_positions in Hks'
      as [|(k' & c & ks'' & Hent & _ & [= <- _])]; [done|].
    by apply (Hnoroot c).
  - apply clean_keys_path. by apply (positions_keys clean_key value).
  - constructor; [by left|by apply clean_keys_path].
Qed.

Lemma full_id_query_not_found_witness :
  let value := JObject [("a", JPrimitive "1")] in
  let n := Node.mk "root.a" 0 110 "a: 1"
             ("root.a" +:+ newline +:+ "PRIMITIVE") primitive in
  keys_satisfy clean_key value ∧
  n ∈ (buildFlowFromJSON value).1 ∧
  resolve (buildFlowFromJSON value).1 "root.a" = NotFound.
Proof.
  intros value n.
  assert (keys_satisfy clean_key value) as Hk.
  { simpl. unfold clean_key. simpl. repeat split; discriminate. }
  assert (∀ child, ("root", child) ∉ entries value) as Hno.
  { intros child [=]%list_elem_of_singleton. }
  assert (n ∈ (buildFlowFromJSON value).1) as Hn.
  { apply list_elem_of_lookup. exists 1%nat. reflexivity. }
  destruct (full_id_query_not_found value n Hk Hno Hn) as (ks & _ & _ & H).
  split; [exact Hk|]. split; [exact Hn|exact H].
Defined.

(** ** [traverse] from any state *)

Section Appends.

Lemma length_visits (v : json) :
  ∀ path depth parentId keyLabel,
    length (visits v path depth parentId keyLabel) = json_size v.
Proof.
  induction v as [v IH] using json_entries_ind.
  intros path depth parentId keyLabel.
  rewrite visits_unfold, json_size_unfold. simpl. f_equal.
  generalize (Some (Js.or_else path keyLabel)) as par.
  induction IH as [|[k c] l Hc Hl IHl]; intros par; simpl; [done|].
  rewrite length_app, IHl. simpl in Hc. by rewrite Hc.
Qed.

Lemma visits_deeper (v : json) (path : string) (depth : nat)
    (parentId : option string) (keyLabel : string) (vis : visit) :
  vis ∈ visits v path depth parentId keyLabel → (depth ≤ v_depth vis)%nat.
Proof.
  intros H.
  assert (v_depth vis ∈ v_depth <$> visits v path depth parentId keyLabel)
    as Hd by (apply list_elem_of_fmap; by exists vis).
  rewrite visits_depths in Hd.
  apply list_elem_of_fmap in Hd as (ks & -> & _). lia.
Qed.

Lemma fold_visits_appends (vs : list visit) (st : flow) :
  let st' := fold_left apply_visit vs st in
  ∃ ns, nodes st' = nodes st ++ ns ∧
        Node.id <$> ns = v_id <$> vs ∧
        edges st' = edges st ++ omap edge_of vs ∧
        (∀ d, default 0%nat (leafOrderAtDepth st !! d)
              ≤ default 0%nat (leafOrderAtDepth st' !! d))%nat ∧
        (∀ d, (∀ vis, vis ∈ vs → v_depth vis ≠ d) →
              leafOrderAtDepth st' !! d = leafOrderAtDepth st !! d).
Proof.
  revert st. induction vs as [|v vs IH]; intros st; cbv zeta.
  - exists []. simpl. by rewrite !app_nil_r.
  - change (fold_left apply_visit (v :: vs) st)
      with (fold_left apply_visit vs (apply_visit st v)).
    destruct (IH (apply_visit st v)) as (ns & Hn & Hid & He & Hc & Hf).
    eexists (_ :: ns). split_and!.
    + rewrite Hn, apply_visit_nodes, <- app_assoc. done.
    + by rewrite !fmap_cons, Hid.
    + rewrite He, apply_visit_edges, <- app_assoc. f_equal.
      simpl. by destruct (edge_of v).
    + intros d. etrans; [|apply Hc]. rewrite apply_visit_counters.
      destruct (decide (v_depth v = d)) as [->|Hne].
      * rewrite lookup_insert_eq. simpl. lia.
      * by rewrite lookup_insert_ne.
    + intros d Hd. rewrite Hf by (intros vis Hvis; apply Hd; by right).
      rewrite apply_visit_counters, lookup_insert_ne; [done|].
      apply Hd. by left.
Qed.

Lemma length_edges_of (vs : list visit) :
  (length (omap edge_of vs) ≤ length vs)%nat.
Proof.
  induction vs as [|v vs IH]; [done|].
  change (omap edge_of (v :: vs))
    with (match edge_of v with
          | Some e => e :: omap edge_of vs
          | None => omap edge_of vs
          end).
  destruct (edge_of v); simpl; lia.
Qed.

End Appends.

(** X18. [traverse] only appends: called on any value with any arguments
    from any state of the builder, it keeps the nodes and the edges that
    were there, in place, and adds after them one node per value of the
    document, the first with the id [path || keyLabel], and at most as
    many edges; no depth counter decreases and the counters of the depths
    above [depth] are left as they were. *)
Theorem traverse_appends (value : json) (path : string) (depth : nat)
    (parentId : option string) (keyLabel : string) (st : flow) :
  let st' := traverse value path depth parentId keyLabel st in
  ∃ ns es,
    nodes st' = nodes st ++ ns ∧
    length ns = json_size value ∧
    Node.id <$> ns !! 0%nat = Some (Js.or_else path keyLabel) ∧
    edges st' = edges st ++ es ∧
    (length es ≤ json_size value)%nat ∧
    (∀ d, default 0%nat (leafOrderAtDepth st !! d)
          ≤ default 0%nat (leafOrderAtDepth st' !! d))%nat ∧
    (∀ d, (d < depth)%nat →
          leafOrderAtDepth st' !! d = leafOrderAtDepth st !! d).
Proof.
  intros st'. unfold st'. rewrite traverse_visits.
  set (vs := visits value path depth parentId keyLabel).
  destruct (fold_visits_appends vs st) as (ns & Hn & Hid & He & Hc & Hf).
  exists ns, (omap edge_of vs). split_and!; [done| | |done| |done|].
  - rewrite <- (length_fmap Node.id ns), Hid, length_fmap.
    apply length_visits.
  - rewrite <- list_lookup_fmap, Hid. unfold vs. by rewrite visits_unfold.
  - etrans; [apply length_edges_of|]. unfold vs. by rewrite length_visits.
  - intros d Hd. apply Hf. intros vis Hvis%visits_deeper. lia.
Qed.

Lemma traverse_appends_witness :
  let st := traverse (JPrimitive "1") "root" 0 None "root" empty_flow in
  let st' := traverse (JArray [JPrimitive "2"]) "root.x" 1 (Some "root") "x" st in
  (0 < 1)%nat ∧
  leafOrderAtDepth st' !! 0%nat = leafOrderAtDepth st !! 0%nat ∧
  Node.id <$> nodes st' = ["root"; "root.x"; "root.x[0]"].
Proof.
  intros st st'.
  destruct (traverse_appends (JArray [JPrimitive "2"]) "root.x" 1
              (Some "root") "x" st)
    as (ns & es & _ & _ & _ & _ & _ & _ & Hf).
  split; [lia|]. split; [exact (Hf 0%nat ltac:(lia))|reflexivity].
Defined.

(** X19. The shape of the tokens: whenever [parseJsonPath] succeeds, each
    token is either a key, non-empty and without dot and opening bracket,
    or an index, an opening bracket, one or more digits (no white space,
    no sign) and a closing bracket; [makeChildPath] appends a key after a
    dot and an index as it is. *)
Theorem tokens_shape (input : string) (tokens : list string) :
  parseJsonPath input = Some tokens →
  ∀ t p, t ∈ tokens → p ≠ "" →
    (t ≠ "" ∧ Js.includes "."%char t = false ∧ Js.includes "["%char t = false ∧
     makeChildPath p t = p +:+ "." +:+ t) ∨
    (∃ d, t = "[" +:+ d +:+ "]" ∧ d ≠ "" ∧ Js.all_digits d = true ∧
          makeChildPath p t = p +:+ t).
Proof.
  intros Hwf%parseJsonPath_wf t p Ht Hp.
  rewrite Forall_forall in Hwf. apply truthy_true in Hp.
  rewrite makeChildPath_segment by done.
  destruct (Hwf t Ht) as [Hk|(d & -> & Hd)].
  - left. rewrite segment_key by done. destruct Hk as [Hne Hk].
    split_and!; [done|by apply no_delim_no_dot| |done].
    clear Hne Ht. induction t as [|c t IH]; [done|]. simpl in *.
    apply andb_true_iff in Hk as [Hc Hk].
    apply negb_true_iff, orb_false_iff in Hc as [_ Hc].
    apply bool_decide_eq_false in Hc.
    destruct (decide (c = "["%char)); [done|]. by apply IH.
  - right. exists d. rewrite segment_index.
    apply andb_true_iff in Hd as [Hne%truthy_true Hd]. done.
Qed.

Lemma tokens_shape_witness :
  parseJsonPath "$.items[ 12 ].name" = Some ["items"; "[12]"; "name"] ∧
  makeChildPath "root.items" "[12]" = "root.items[12]".
Proof.
  assert (parseJsonPath "$.items[ 12 ].name" = Some ["items"; "[12]"; "name"])
    as H by reflexivity.
  split; [exact H|].
  destruct (tokens_shape _ _ H "[12]" "root.items") as [(_ & _ & Hb & _)|Hi].
  - apply list_elem_of_lookup. exists 1%nat. reflexivity.
  - discriminate.
  - discriminate Hb.
  - destruct Hi as (d & _ & _ & _ & Hm). exact Hm.
Defined.

(** X20. Tokens to text and back: for every sequence of well-shaped
    tokens whose rendering does not end in white space, the path made of
    ["$"] and the segments of the tokens (a dot before each key, an index
    as it is) tokenizes to exactly these tokens, and the path composed
    from them is ["root"] followed by the same segments. *)
Theorem render_then_parse (tokens : list string) :
  Forall wf_token tokens →
  (∀ c, last_char (segments tokens) = Some c → Js.is_white_space c = false) →
  parseJsonPath ("$" +:+ segments tokens) = Some tokens ∧
  compose_path tokens = "root" +:+ segments tokens.
Proof.
  intros Hwf Hlast. split; [|apply compose_path_segments].
  rewrite parse_dollar.
  - rewrite scan_segments by done. simpl. by rewrite filter_truthy_wf.
  - apply trim_id; [|done]. intros c r Hs.
    destruct Hwf as [|t ts Ht _]; [done|]. simpl in Hs.
    destruct (segment_split t (wf_token_path_key _ Ht)) as (x & b & Hx & Hd & _).
    rewrite Hx in Hs. simpl in Hs. injection Hs as <- _.
    unfold is_delim in Hd. apply orb_true_iff in Hd as [Hd|Hd];
      apply bool_decide_eq_true in Hd; by subst x.
Qed.

Lemma render_then_parse_witness :
  Forall wf_token ["a b"; "[07]"; "c"] ∧
  parseJsonPath "$.a b[07].c" = Some ["a b"; "[07]"; "c"].
Proof.
  assert (Forall wf_token ["a b"; "[07]"; "c"]) as Hwf.
  { apply Forall_cons; split; [left; split; [discriminate|reflexivity]|].
    apply Forall_cons; split; [right; exists "07"; split; reflexivity|].
    apply Forall_cons; split; [left; split; [discriminate|reflexivity]|].
    constructor. }
  split; [exact Hwf|].
  refine (proj1 (render_then_parse ["a b"; "[07]"; "c"] Hwf _)).
  intros c [= <-]. reflexivity.
Defined.
